(** * notmuch_propagate_mute: propagation of the mute command down a thread

    A shallow embedding of [notmuch_propagate_mute.py].  The script reads
    the [mute-thread] tag that a human puts on a message and writes the
    [thread-muted] tag on that message and on the replies below it, until
    a reply addresses the user more directly than its parent did.

    The notmuch database is modelled as a tag index keyed by message id,
    together with a journal of the [add_tag] calls that were made on it.
    A [Message] is the handle the library returns: an id, its headers and
    its replies.  Code that touches the database runs in a small state
    monad. *)

From Stdlib Require Import ZArith Ascii.
From stdpp Require Import base gmap strings list pretty.

(** ** Python [str] operations used by the script *)

Module Str.

(** [hay.startswith(needle)] *)
Fixpoint startswith (needle hay : string) : bool :=
  match needle, hay with
  | EmptyString, _ => true
  | String _ _, EmptyString => false
  | String a needle', String b hay' =>
      if decide (a = b) then startswith needle' hay' else false
  end.

(** [needle in hay]: [needle] occurs in [hay] as a contiguous run of
    characters. *)
Fixpoint contains (needle hay : string) : bool :=
  startswith needle hay ||
  match hay with
  | EmptyString => false
  | String _ hay' => contains needle hay'
  end.

(** [sep.join(parts)] *)
Fixpoint join (sep : string) (parts : list string) : string :=
  match parts with
  | [] => ""
  | [p] => p
  | p :: rest => p +:+ sep +:+ join sep rest
  end.

(** [occurs needle hay]: what [needle in hay] is meant to decide. *)
Definition occurs (needle hay : string) : Prop :=
  ∃ before after, hay = before +:+ needle +:+ after.

(** The characters of a string. *)
Fixpoint chars (s : string) : list ascii :=
  match s with
  | EmptyString => []
  | String a s' => a :: chars s'
  end.

(** ASCII case folding, as [str.lower] does on ASCII letters. *)
Definition lower_char (c : ascii) : ascii :=
  let n := N_of_ascii c in
  if ((65 <=? n) && (n <=? 90))%N then ascii_of_N (n + 32) else c.

Fixpoint lower (s : string) : string :=
  match s with
  | EmptyString => EmptyString
  | String a s' => String (lower_char a) (lower s')
  end.

End Str.

(** ** Tags *)

Definition MUTE_CMD_TAG : string := "mute-thread".
Definition MUTED_TAG : string := "thread-muted".
Definition PROCESSED_TAG : string := "mute-processed".

(** ** The [Addressed] enumeration ([enum.IntEnum]) *)

Inductive Addressed : Set := NONE | CC | TO.

Definition Addressed_value (a : Addressed) : Z :=
  match a with
  | NONE => 0
  | CC => 1
  | TO => 2
  end.

(** [a <= b] on an [IntEnum] compares the integer values. *)
Definition Addressed_le (a b : Addressed) : bool :=
  (Addressed_value a <=? Addressed_value b)%Z.

Global Instance Addressed_eq_dec : EqDecision Addressed.
Proof. solve_decision. Defined.

(** ** Messages and the database *)

Local Unset Elimination Schemes.

(** A message handle: the message id that keys the tag index, the header
    fields, and the direct replies in the order the library yields them. *)
Inductive Message : Type :=
  Msg {
    message_id : string;
    headers : gmap string string;
    replies : list Message
  }.

Local Set Elimination Schemes.

(** [msg.get_header(name)]: the header text, empty when the header is
    absent. *)
Definition get_header (msg : Message) (name : string) : string :=
  default "" (headers msg !! name).

(** The database: the tags of every message, and the [add_tag] calls made
    so far, oldest first. *)
Record Database : Type :=
  Db {
    tag_index : gmap string (gset string);
    journal : list (string * string)
  }.

(** Tags of a message id; a message the index does not know has none. *)
Definition tags_of (db : Database) (id : string) : gset string :=
  default ∅ (tag_index db !! id).

(** *** The state monad over the database *)

Definition M (A : Type) : Type := Database → A * Database.

Global Instance M_ret : MRet M := λ A a db, (a, db).

Global Instance M_bind : MBind M :=
  λ A B k m db, let '(a, db') := m db in k a db'.

(** The database a computation leaves behind. *)
Definition exec {A} (m : M A) (db : Database) : Database := (m db).2.

(** [for x in xs: body(x)] *)
Definition for_each {A} (body : A → M unit) : list A → M unit :=
  fix go (xs : list A) : M unit :=
    match xs with
    | [] => mret tt
    | x :: xs' => body x ;; go xs'
    end.

(** [msg.get_tags()] *)
Definition get_tags (msg : Message) : M (gset string) :=
  λ db, (tags_of db (message_id msg), db).

(** [msg.add_tag(tag)]: the tag joins the message's tag set (nothing
    changes there when it is already present) and the call is
    journalled. *)
Definition add_tag (msg : Message) (tag : string) : M unit :=
  λ db,
    (tt,
     {| tag_index :=
          <[message_id msg := {[tag]} ∪ tags_of db (message_id msg)]>
            (tag_index db);
        journal := journal db ++ [(message_id msg, tag)] |}).

(** ** The script *)

Section Script.

(** The [--email] argument. *)
Variable EMAIL : string.

(** [Addressed.from_msg] *)
Definition from_msg (msg : Message) : Addressed :=
  if Str.contains EMAIL (get_header msg "To") then TO
  else if Str.contains EMAIL (get_header msg "Cc") then CC
  else NONE.

(** The value that [apply_mute] computes for its local variable [mute]
    from the tags of the message, the two arguments that describe the
    parent, and the message's own addressing. *)
Definition mute_decision (tags : gset string) (parent_muted : bool)
    (parent_addressed : option Addressed) (addressed : Addressed) : bool :=
  if decide (MUTE_CMD_TAG ∈ tags) then true
  else if parent_muted then
    match parent_addressed with
    | None => false
    | Some parent => Addressed_le addressed parent
    end
  else false.

(** [apply_mute], in a run that the recursion limit of the interpreter
    lets complete; [apply_mute_limited] below is the function under that
    limit. *)
Fixpoint apply_mute (msg : Message) (parent_muted : bool)
    (parent_addressed : option Addressed) {struct msg} : M unit :=
  match msg with
  | Msg _ _ msg_replies =>
      let addressed := from_msg msg in
      tags ← get_tags msg;
      let mute := mute_decision tags parent_muted parent_addressed addressed in
      (if mute then add_tag msg MUTED_TAG else mret tt) ;;
      add_tag msg PROCESSED_TAG ;;
      for_each (λ reply, apply_mute reply mute (Some addressed)) msg_replies
  end.

End Script.

(** ** The loop of the main program

    Each selected thread is handled by [apply_mute] on its first
    message, with no muted parent and [None] for the parent's
    addressing. *)
Definition mute_threads (EMAIL : string) (threads : list Message) : M unit :=
  for_each (λ thread, apply_mute EMAIL thread false None) threads.

(** ** Vocabulary of the statements *)

(** The messages of a thread in the order [apply_mute] reaches them:
    a message, then the subtrees of its replies from first to last. *)
Fixpoint preorder (msg : Message) : list Message :=
  match msg with
  | Msg _ _ msg_replies => msg :: (msg_replies ≫= preorder)
  end.

Definition thread_ids (msg : Message) : list string :=
  message_id <$> preorder msg.

(** The message ids that carry [tag] in the index. *)
Definition carrying (tag : string) (db : Database) : gset string :=
  dom (filter (λ entry, tag ∈ entry.2) (tag_index db)).

(** The part of the journal written since the database was [before]. *)
Definition journal_since (before after : Database) : list (string * string) :=
  drop (length (journal before)) (journal after).

(** One call of [apply_mute], as the arguments it was made with. *)
Record Call : Type :=
  MkCall {
    call_email : string;
    call_msg : Message;
    call_parent_muted : bool;
    call_parent_addressed : option Addressed
  }.

Definition run_call (c : Call) : M unit :=
  apply_mute (call_email c) (call_msg c) (call_parent_muted c)
    (call_parent_addressed c).

(** Several runs, one after the other on the same database. *)
Definition run_calls (cs : list Call) : M unit := for_each run_call cs.

(** *** Writes

    A write is a pair of a message id and a tag; [write] is what
    [add_tag] does to the database. *)
Definition write (db : Database) (w : string * string) : Database :=
  {| tag_index := <[w.1 := {[w.2]} ∪ tags_of db w.1]> (tag_index db);
     journal := journal db ++ [w] |}.

Definition write_all (ws : list (string * string)) (db : Database) : Database :=
  foldl write db ws.

(** The writes that [apply_mute] is going to make, computed ahead of the
    traversal from the tags the messages have in [db0]. *)
Fixpoint plan (EMAIL : string) (db0 : Database) (msg : Message)
    (parent_muted : bool) (parent_addressed : option Addressed)
    : list (string * string) :=
  match msg with
  | Msg id _ msg_replies =>
      let addressed := from_msg EMAIL msg in
      let mute :=
        mute_decision (tags_of db0 id) parent_muted parent_addressed addressed in
      (if mute then [(id, MUTED_TAG)] else []) ++
      (id, PROCESSED_TAG) ::
      (msg_replies ≫= λ reply, plan EMAIL db0 reply mute (Some addressed))
  end.

(** Two databases agree on who carries the command tag. *)
Definition same_commands (db1 db2 : Database) : Prop :=
  ∀ id, MUTE_CMD_TAG ∈ tags_of db1 id ↔ MUTE_CMD_TAG ∈ tags_of db2 id.

(** The writes a call makes on its own message before it turns to the
    replies. *)
Definition own_writes (id : string) (mute : bool) : list (string * string) :=
  (if mute then [(id, MUTED_TAG)] else []) ++ [(id, PROCESSED_TAG)].

(** The [add_tag] calls of one call of [apply_mute] on [msg]: the
    processed marker, with or without the muted tag before it, both on
    [msg]. *)
Definition calls_on (msg : Message) (block : list (string * string)) : Prop :=
  block = [(message_id msg, PROCESSED_TAG)]
  ∨ block = [(message_id msg, MUTED_TAG); (message_id msg, PROCESSED_TAG)].

(** *** Sample data

    A thread of three messages on a mailing list.  The root is addressed
    to the list alone and carries the command tag; the reply and the
    reply to the reply put the user in Cc. *)

Definition mail (id to cc : string) (msg_replies : list Message) : Message :=
  Msg id {[ "To" := to; "Cc" := cc ]} msg_replies.

Definition me : string := "me@example.org".

Definition sample_B : Message := mail "b@thread" "list@example.org" me [].
Definition sample_A : Message :=
  mail "a@thread" "list@example.org" me [sample_B].
Definition sample_R : Message :=
  mail "r@thread" "list@example.org" "" [sample_A].

Definition sample_db : Database :=
  {| tag_index := {[ "r@thread" := {[ MUTE_CMD_TAG; "inbox" ]} ;
                     "a@thread" := {[ "inbox" ]} ]};
     journal := [] |}.

(** Two mails that differ in the letter case of the To header only. *)
Definition sample_lower : Message := mail "l@thread" "me@example.org" "" [].
Definition sample_upper : Message := mail "u@thread" "ME@EXAMPLE.ORG" "" [].

(** Closes a decidable goal by evaluation. *)
Ltac by_evaluation := apply (bool_decide_unpack _); vm_compute; exact I.

(** ** The recursion limit of the interpreter

    [apply_mute] calls itself once for every level of replies, and the
    interpreter admits only so many nested calls: beyond that a call
    raises [RecursionError] before it has done anything, and the
    exception ends the run; what was written before stays written.  The
    script does not change the limit. *)

Inductive Exception : Set := RecursionError.

Inductive Result (A : Type) : Type :=
  | Returned (a : A)
  | Raised (e : Exception).

Arguments Returned {A} a.
Arguments Raised {A} e.

(** Database computations that may raise. *)
Definition MX (A : Type) : Type := Database → Result A * Database.

Global Instance MX_ret : MRet MX := λ A a db, (Returned a, db).









(** ** Printing and the main program

    [print_thread] and the main program write to the standard output
    besides reading and writing the database.  The world is the database
    together with what was printed, one entry per call of [print]. *)

Record World : Type :=
  MkWorld {
    database : Database;
    stdout : list string
  }.

Definition IO (A : Type) : Type := World → A * World.

Global Instance IO_ret : MRet IO := λ A a w, (a, w).

Global Instance IO_bind : MBind IO :=
  λ A B k m w, let '(a, w') := m w in k a w'.

(** The world a program leaves behind. *)
Definition run_io {A} (m : IO A) (w : World) : World := (m w).2.

(** A database computation, run in the world. *)
Definition lift {A} (m : M A) : IO A :=
  λ w, let '(a, db') := m (database w) in
       (a, {| database := db'; stdout := stdout w |}).

(** [for x in xs: body(x)] *)
Definition io_for_each {A} (body : A → IO unit) : list A → IO unit :=
  fix go (xs : list A) : IO unit :=
    match xs with
    | [] => mret tt
    | x :: xs' => body x ;; go xs'
    end.

(** [print] of some strings: the arguments separated by single spaces,
    on a line of their own. *)
Definition print (args : list string) : IO unit :=
  λ w, (tt, {| database := database w;
               stdout := stdout w ++ [Str.join " " args] |}).

(** [s * n]: [n] copies of [s], none when [n] is not positive. *)
Definition repeat_str (s : string) (n : Z) : string :=
  Nat.iter (Z.to_nat n) (String.append s) "".

Section Printing.

(** The [--verbose] and [--email] arguments. *)
Variable VERBOSE : bool.
Variable EMAIL : string.

(** [verbose_print] *)
Definition verbose_print (args : list string) : IO unit :=
  if VERBOSE then print args else mret tt.

(** [print_thread] *)
Fixpoint print_thread (msg : Message) (nest_level : Z) {struct msg} : IO unit :=
  match msg with
  | Msg _ _ msg_replies =>
      tags ← lift (get_tags msg);
      tag_chars ←
        (if decide (MUTE_CMD_TAG ∈ tags) then mret "M"
         else
           tags ← lift (get_tags msg);
           if decide (MUTED_TAG ∈ tags) then mret "m" else mret " ");
      let addressed := from_msg EMAIL msg in
      let tag_chars :=
        tag_chars +:+
        (if decide (addressed = TO) then "t"
         else if decide (addressed = CC) then "c"
         else " ") in
      verbose_print
        [repeat_str "  " nest_level +:+ "<" +:+ tag_chars +:+ "> " +:+
         get_header msg "Subject"] ;;
      io_for_each (λ reply, print_thread reply (nest_level + 1)) msg_replies
  end.

(** [query_string], from the [--query-extra] argument. *)
Definition query_string (query_extra : string) : string :=
  ("tag:" +:+ MUTE_CMD_TAG +:+ " AND NOT tag:" +:+ PROCESSED_TAG +:+ " ")
  +:+ query_extra.

(** The query engine of the library: for a query string and a database,
    the first message of every thread that matches, in the order the
    library yields the threads.  The threads of a loop are those that
    matched when the loop started. *)
Variable search_threads : string → Database → list Message.

Definition search (query : string) : IO (list Message) :=
  λ w, (search_threads query (database w), w).

(** The main program, after the arguments are parsed. *)
Definition main (query_extra : string) : IO unit :=
  let query := query_string query_extra in
  threads ← search query;
  io_for_each
    (λ thread,
       print_thread thread 0 ;;
       verbose_print [] ;;
       verbose_print ["muting..."])
    threads ;;
  threads ← search query;
  io_for_each
    (λ thread,
       lift (apply_mute EMAIL thread false None) ;;
       verbose_print [] ;;
       verbose_print [])
    threads ;;
  threads ← search query;
  io_for_each (λ thread, print_thread thread 0) threads.

End Printing.

(** *** Vocabulary for printing *)

(** What a program has printed, from the world it started in. *)
Definition printed_by {A} (m : IO A) (w : World) : list string :=
  drop (length (stdout w)) (stdout (run_io m w)).

(** The two characters [print_thread] shows between the angle brackets. *)
Definition tag_chars_of (EMAIL : string) (db : Database) (msg : Message) : string :=
  (if decide (MUTE_CMD_TAG ∈ tags_of db (message_id msg)) then "M"
   else if decide (MUTED_TAG ∈ tags_of db (message_id msg)) then "m"
   else " ") +:+
  (match from_msg EMAIL msg with
   | TO => "t"
   | CC => "c"
   | NONE => " "
   end).

(** The line of one message. *)
Definition thread_line (EMAIL : string) (db : Database) (msg : Message)
    (nest_level : Z) : string :=
  repeat_str "  " nest_level +:+ "<" +:+ tag_chars_of EMAIL db msg +:+ "> " +:+
  get_header msg "Subject".

(** The lines of a thread, top down. *)
Fixpoint thread_lines (EMAIL : string) (db : Database) (msg : Message)
    (nest_level : Z) : list string :=
  match msg with
  | Msg _ _ msg_replies =>
      thread_line EMAIL db msg nest_level ::
      (msg_replies ≫= λ reply, thread_lines EMAIL db reply (nest_level + 1))
  end.

(** ** Vocabulary for chains of replies *)

(** Every element of the list is related to the next one. *)
Fixpoint linked {A} (R : A → A → Prop) (l : list A) : Prop :=
  match l with
  | x :: (y :: _) as l' => R x y ∧ linked R l'
  | _ => True
  end.

(** [reply] is a direct reply to [parent]. *)
Definition reply_of (parent reply : Message) : Prop :=
  reply ∈ replies parent.

(** [reply] addresses the user no more strongly than [parent] did. *)
Definition no_stronger (EMAIL : string) (parent reply : Message) : Prop :=
  Addressed_le (from_msg EMAIL reply) (from_msg EMAIL parent) = true.

(** The value of [mute] in the call of [apply_mute] on the last message
    of the chain [msg :: below], when the call on [msg] was made with
    [parent_muted] and [parent_addressed]. *)
Fixpoint mute_along (EMAIL : string) (db : Database) (parent_muted : bool)
    (parent_addressed : option Addressed) (msg : Message)
    (below : list Message) : bool :=
  let addressed := from_msg EMAIL msg in
  let mute :=
    mute_decision (tags_of db (message_id msg)) parent_muted parent_addressed
      addressed in
  match below with
  | [] => mute
  | reply :: below' => mute_along EMAIL db mute (Some addressed) reply below'
  end.

Local Unset Elimination Schemes.

(** The same thread with the replies to each message in another order. *)
Inductive reordered : Message → Message → Prop :=
  | reordered_msg id hdrs rs mid rs' :
      Forall2 reordered rs mid → mid ≡ₚ rs' →
      reordered (Msg id hdrs rs) (Msg id hdrs rs').

(** The same thread after more replies have arrived: every message keeps
    its id, its headers and its replies, and may have new replies among
    the old ones. *)
Inductive grown : Message → Message → Prop :=
  | grown_msg id hdrs rs kept rs' :
      Forall2 grown rs kept → sublist kept rs' →
      grown (Msg id hdrs rs) (Msg id hdrs rs').

Local Set Elimination Schemes.

(** *** More sample data

    The sample thread with a second reply to the root, addressed to the
    user, in both orders of the two replies; and the sample thread
    before the reply to the reply had arrived. *)

Definition sample_C : Message := mail "c@thread" me "" [].
Definition sample_R2 : Message :=
  mail "r@thread" "list@example.org" "" [sample_A; sample_C].
Definition sample_R2' : Message :=
  mail "r@thread" "list@example.org" "" [sample_C; sample_A].
(** A database where the reply carries the command tag. *)
Definition sample_db_A : Database :=
  {| tag_index := {[ "a@thread" := {[ MUTE_CMD_TAG ]} ]}; journal := [] |}.

Definition sample_A_before : Message :=
  mail "a@thread" "list@example.org" me [].
Definition sample_R_before : Message :=
  mail "r@thread" "list@example.org" "" [sample_A_before].

(** ** Basic facts *)

Lemma Message_rose_ind (P : Message → Prop) :
  (∀ id hdrs rs, Forall P rs → P (Msg id hdrs rs)) → ∀ msg, P msg.
Proof.
  intros step. fix IH 1. intros [id hdrs rs]. apply step.
  induction rs as [|r rs IHrs]; constructor; [apply IH | exact IHrs].
Qed.

Lemma run_unit (m : M unit) db : m db = (tt, exec m db).
Proof. unfold exec. by destruct (m db) as [[] db']. Qed.

Lemma exec_bind {A B} (m : M A) (k : A → M B) db :
  exec (m ≫= k) db = exec (k (m db).1) (m db).2.
Proof. unfold exec, mbind, M_bind. by destruct (m db). Qed.

Lemma exec_ret {A} (a : A) db : exec (mret a) db = db.
Proof. done. Qed.

Lemma exec_add_tag msg tag db :
  exec (add_tag msg tag) db = write db (message_id msg, tag).
Proof. done. Qed.

Lemma exec_for_each_nil {A} (body : A → M unit) db :
  exec (for_each body []) db = db.
Proof. done. Qed.

Lemma exec_for_each_cons {A} (body : A → M unit) x xs db :
  exec (for_each body (x :: xs)) db = exec (for_each body xs) (exec (body x) db).
Proof. simpl. rewrite exec_bind. by rewrite (run_unit (body x)). Qed.

Lemma exec_for_each_app {A} (body : A → M unit) xs ys db :
  exec (for_each body (xs ++ ys)) db
  = exec (for_each body ys) (exec (for_each body xs) db).
Proof.
  revert db. induction xs as [|x xs IH]; intros db; [done|].
  rewrite <- app_comm_cons, !exec_for_each_cons. apply IH.
Qed.

(** *** Writes and what they do to the tags *)

Lemma tags_of_write db w id :
  tags_of (write db w) id
  = if decide (id = w.1) then {[w.2]} ∪ tags_of db id else tags_of db id.
Proof.
  unfold tags_of at 1. simpl. rewrite lookup_insert.
  repeat case_decide; by simplify_eq.
Qed.

Lemma elem_of_tags_of_write db w id tag :
  tag ∈ tags_of (write db w) id ↔ tag ∈ tags_of db id ∨ w = (id, tag).
Proof.
  rewrite tags_of_write. destruct w as [wid wtag]; simpl.
  case_decide; set_solver.
Qed.

Lemma write_all_app ws1 ws2 db :
  write_all (ws1 ++ ws2) db = write_all ws2 (write_all ws1 db).
Proof. apply foldl_app. Qed.

Lemma journal_write_all ws db :
  journal (write_all ws db) = journal db ++ ws.
Proof.
  revert db. induction ws as [|w ws IH]; intros db; simpl.
  - by rewrite app_nil_r.
  - rewrite IH. simpl. by rewrite <- app_assoc.
Qed.

Lemma elem_of_tags_of_write_all ws db id tag :
  tag ∈ tags_of (write_all ws db) id ↔ tag ∈ tags_of db id ∨ (id, tag) ∈ ws.
Proof.
  revert db. induction ws as [|w ws IH]; intros db; simpl.
  - set_solver.
  - rewrite IH, elem_of_tags_of_write, elem_of_cons. naive_solver.
Qed.

Lemma journal_since_write_all ws db :
  journal_since db (write_all ws db) = ws.
Proof.
  unfold journal_since. rewrite journal_write_all.
  by rewrite drop_app_length.
Qed.

(** A write of a tag that is already there leaves the index alone. *)
Lemma write_present db w :
  w.2 ∈ tags_of db w.1 → tag_index (write db w) = tag_index db.
Proof.
  destruct w as [id tag]; simpl. unfold tags_of.
  destruct (tag_index db !! id) as [tags|] eqn:Hid; simpl; [|set_solver].
  intros Hin. apply insert_id. rewrite Hid. f_equal. set_solver.
Qed.

Lemma tags_of_index db1 db2 :
  tag_index db1 = tag_index db2 → tags_of db1 = tags_of db2.
Proof. intros Heq. unfold tags_of. by rewrite Heq. Qed.

Lemma write_all_present ws db :
  (∀ w, w ∈ ws → w.2 ∈ tags_of db w.1) →
  tag_index (write_all ws db) = tag_index db.
Proof.
  revert db. induction ws as [|w ws IH]; intros db Hall; [done|]. simpl.
  assert (tag_index (write db w) = tag_index db) as Hw
    by (apply write_present, Hall; left).
  rewrite IH, Hw; [done|].
  intros w' Hw'. rewrite (tags_of_index _ _ Hw). apply Hall. by right.
Qed.

(** Writing the same batch a second time changes no tag. *)
Lemma write_all_twice ws db :
  tag_index (write_all ws (write_all ws db)) = tag_index (write_all ws db).
Proof.
  apply write_all_present. intros [id tag] Hin; simpl.
  apply elem_of_tags_of_write_all. by right.
Qed.

Lemma elem_of_carrying tag db id :
  id ∈ carrying tag db ↔ tag ∈ tags_of db id.
Proof.
  unfold carrying, tags_of. rewrite elem_of_dom. split.
  - intros [tags Htags]. apply map_lookup_filter_Some in Htags as [-> Hin].
    done.
  - destruct (tag_index db !! id) as [tags|] eqn:Hid; simpl; [|set_solver].
    intros Hin. exists tags. by apply map_lookup_filter_Some.
Qed.

Lemma carrying_index tag db1 db2 :
  tag_index db1 = tag_index db2 → carrying tag db1 = carrying tag db2.
Proof. intros Heq. unfold carrying. by rewrite Heq. Qed.

(** *** One call of [apply_mute], unfolded *)

Section Traversal.

Context (EMAIL : string).

Lemma apply_mute_unfold msg parent_muted parent_addressed db :
  let addressed := from_msg EMAIL msg in
  let mute :=
    mute_decision (tags_of db (message_id msg)) parent_muted
      parent_addressed addressed in
  exec (apply_mute EMAIL msg parent_muted parent_addressed) db
  = exec (for_each (λ reply, apply_mute EMAIL reply mute (Some addressed))
            (replies msg))
      (write_all (own_writes (message_id msg) mute) db).
Proof.
  destruct msg as [id hdrs rs]. simpl.
  rewrite exec_bind. simpl.
  destruct (mute_decision _ _ _ _); rewrite !exec_bind; simpl; done.
Qed.

Lemma plan_unfold db0 msg parent_muted parent_addressed :
  let addressed := from_msg EMAIL msg in
  let mute :=
    mute_decision (tags_of db0 (message_id msg)) parent_muted
      parent_addressed addressed in
  plan EMAIL db0 msg parent_muted parent_addressed
  = own_writes (message_id msg) mute ++
    (replies msg ≫= λ reply, plan EMAIL db0 reply mute (Some addressed)).
Proof.
  destruct msg as [id hdrs rs]. simpl. unfold own_writes.
  by rewrite <- app_assoc.
Qed.

(** The decision looks at the tags only to see the command tag. *)
Lemma mute_decision_same_commands db1 db2 id pm pa addressed :
  same_commands db1 db2 →
  mute_decision (tags_of db1 id) pm pa addressed
  = mute_decision (tags_of db2 id) pm pa addressed.
Proof.
  intros Hsame. unfold mute_decision.
  destruct (decide (_ ∈ tags_of db1 id)) as [Hin|Hout],
           (decide (_ ∈ tags_of db2 id)) as [Hin'|Hout']; try done.
  - by apply Hsame in Hin.
  - by apply Hsame in Hin'.
Qed.

(** Every planned write is to a message of the thread, and puts the
    muted tag or the processed marker. *)
Lemma thread_ids_reply id hdrs rs reply x :
  reply ∈ rs → x ∈ thread_ids reply → x ∈ thread_ids (Msg id hdrs rs).
Proof.
  unfold thread_ids. rewrite !list_elem_of_fmap.
  intros Hreply (m & -> & Hm). exists m. split; [done|].
  simpl. right. apply list_elem_of_bind. by exists reply.
Qed.

Lemma plan_writes db0 msg pm pa id tag :
  (id, tag) ∈ plan EMAIL db0 msg pm pa →
  id ∈ thread_ids msg ∧ (tag = MUTED_TAG ∨ tag = PROCESSED_TAG).
Proof.
  revert pm pa.
  induction msg as [mid hdrs rs IH] using Message_rose_ind; intros pm pa.
  assert (mid ∈ thread_ids (Msg mid hdrs rs)) as Hroot by (by left).
  simpl. rewrite elem_of_app, elem_of_cons, list_elem_of_bind.
  intros [Hown | [Hown | (r & Hin & Hr)]].
  - destruct (mute_decision _ _ _ _); [|set_solver].
    apply list_elem_of_singleton in Hown. simplify_eq. auto.
  - simplify_eq. auto.
  - rewrite Forall_forall in IH. destruct (IH r Hr _ _ Hin) as [Hid Htag].
    split; [|done]. by eapply thread_ids_reply.
Qed.

Lemma write_all_same_commands ws db :
  (∀ w, w ∈ ws → w.2 ≠ MUTE_CMD_TAG) → same_commands (write_all ws db) db.
Proof.
  intros Hws id. rewrite elem_of_tags_of_write_all.
  split; [|by left]. intros [Hin | Hin]; [done|].
  by apply Hws in Hin.
Qed.

Lemma plan_same_commands db db0 msg pm pa :
  same_commands (write_all (plan EMAIL db0 msg pm pa) db) db.
Proof.
  apply write_all_same_commands. intros [id tag] Hin; simpl.
  apply plan_writes in Hin as [_ [-> | ->]]; done.
Qed.

Lemma same_commands_trans db1 db2 db3 :
  same_commands db1 db2 → same_commands db2 db3 → same_commands db1 db3.
Proof. intros H12 H23 id. etrans; [apply H12 | apply H23]. Qed.

Lemma same_commands_sym db1 db2 :
  same_commands db1 db2 → same_commands db2 db1.
Proof. intros H12 id. symmetry. apply H12. Qed.

(** A call does to the database what its plan says, write by write. *)
Lemma apply_mute_plan db0 msg pm pa db :
  same_commands db db0 →
  exec (apply_mute EMAIL msg pm pa) db
  = write_all (plan EMAIL db0 msg pm pa) db.
Proof.
  revert pm pa db. induction msg as [id hdrs rs IH] using Message_rose_ind; intros pm pa db Hsame.
  rewrite apply_mute_unfold, plan_unfold, write_all_app. simpl.
  rewrite (mute_decision_same_commands db db0) by done.
  set (mute := mute_decision _ _ _ _).
  set (addressed := from_msg _ _).
  assert (same_commands (write_all (own_writes id mute) db) db0) as Hown.
  { eapply same_commands_trans; [|exact Hsame].
    apply write_all_same_commands. intros w Hw.
    unfold own_writes in Hw. destruct mute; set_solver. }
  generalize dependent (write_all (own_writes id mute) db).
  clear Hsame db. induction IH as [|r rs Hr _ IHrs]; intros db Hsame; [done|].
  rewrite exec_for_each_cons. simpl. rewrite write_all_app.
  rewrite Hr by done. apply IHrs.
  eapply same_commands_trans; [apply plan_same_commands | done].
Qed.

Lemma apply_mute_self_plan msg pm pa db :
  exec (apply_mute EMAIL msg pm pa) db
  = write_all (plan EMAIL db msg pm pa) db.
Proof. by apply apply_mute_plan. Qed.

Lemma plan_ext db1 db2 msg pm pa :
  same_commands db1 db2 →
  plan EMAIL db1 msg pm pa = plan EMAIL db2 msg pm pa.
Proof.
  intros Hsame. revert pm pa.
  induction msg as [id hdrs rs IH] using Message_rose_ind; intros pm pa. simpl.
  rewrite (mute_decision_same_commands db1 db2) by done.
  f_equal. f_equal.
  generalize (mute_decision (tags_of db2 id) pm pa
                (from_msg EMAIL (Msg id hdrs rs))) as mute.
  generalize (from_msg EMAIL (Msg id hdrs rs)) as addressed.
  intros addressed mute.
  induction IH as [|r rs Hr _ IHrs]; [done|].
  rewrite !bind_cons. by rewrite Hr, IHrs.
Qed.

End Traversal.

(** ** The decision at one message *)

Lemma Addressed_le_spec a b :
  Addressed_le a b = true ↔ (Addressed_value a ≤ Addressed_value b)%Z.
Proof. unfold Addressed_le. apply Z.leb_le. Qed.

(** The enumeration is ordered NONE < CC < TO. *)
Lemma Addressed_order :
  (Addressed_value NONE < Addressed_value CC < Addressed_value TO)%Z.
Proof. simpl. lia. Qed.

Lemma mute_decision_command tags pm pa addressed :
  MUTE_CMD_TAG ∈ tags → mute_decision tags pm pa addressed = true.
Proof. intros Hcmd. unfold mute_decision. by rewrite decide_True. Qed.

Lemma mute_decision_no_command tags pm pa addressed :
  MUTE_CMD_TAG ∉ tags →
  mute_decision tags pm pa addressed
  = pm && match pa with
          | None => false
          | Some parent => Addressed_le addressed parent
          end.
Proof.
  intros Hcmd. unfold mute_decision. rewrite decide_False by done.
  by destruct pm.
Qed.

(** The new part of the journal after a call starts with the call's own
    writes. *)
Lemma apply_mute_journal EMAIL msg pm pa db :
  let addressed := from_msg EMAIL msg in
  let mute := mute_decision (tags_of db (message_id msg)) pm pa addressed in
  journal_since db (exec (apply_mute EMAIL msg pm pa) db)
  = own_writes (message_id msg) mute ++
    (replies msg ≫= λ reply, plan EMAIL db reply mute (Some addressed)).
Proof.
  simpl. rewrite apply_mute_self_plan, journal_since_write_all.
  apply plan_unfold.
Qed.



(** C2: a message that carries the command tag is muted whatever the
    parent's state and addressing, root or not: the decision is true, the
    call first writes the muted tag and then the processed marker on it,
    and the message carries the muted tag when the call returns. *)
Theorem command_tag_always_mutes EMAIL msg parent_muted parent_addressed db :
  MUTE_CMD_TAG ∈ tags_of db (message_id msg) →
  let db' := exec (apply_mute EMAIL msg parent_muted parent_addressed) db in
  mute_decision (tags_of db (message_id msg)) parent_muted parent_addressed
    (from_msg EMAIL msg) = true
  ∧ (∃ rest,
       journal_since db db'
       = (message_id msg, MUTED_TAG) :: (message_id msg, PROCESSED_TAG) :: rest)
  ∧ MUTED_TAG ∈ tags_of db' (message_id msg).
Proof.
  intros Hcmd db'.
  pose proof (mute_decision_command _ parent_muted parent_addressed
                (from_msg EMAIL msg) Hcmd) as Hmute.
  pose proof (apply_mute_journal EMAIL msg parent_muted parent_addressed db)
    as Hjournal.
  simpl in Hjournal. rewrite Hmute in Hjournal. fold db' in Hjournal.
  split_and!; [exact Hmute | |].
  { eexists. exact Hjournal. }
  unfold db'. rewrite apply_mute_self_plan.
  apply elem_of_tags_of_write_all. right.
  rewrite plan_unfold. simpl. rewrite Hmute. by left.
Qed.

Lemma command_tag_always_mutes_witness :
  MUTE_CMD_TAG ∈ tags_of sample_db (message_id sample_R)
  ∧ MUTED_TAG ∈
      tags_of (exec (apply_mute me sample_R false None) sample_db)
        (message_id sample_R).
Proof.
  assert (MUTE_CMD_TAG ∈ tags_of sample_db (message_id sample_R)) as Hcmd.
  { by_evaluation. }
  split; [exact Hcmd|].
  exact (proj2 (proj2
    (command_tag_always_mutes me sample_R false None sample_db Hcmd))).
Defined.

(** ** The root of a thread *)

Lemma thread_ids_unfold msg :
  thread_ids msg = message_id msg :: (replies msg ≫= thread_ids).
Proof.
  destruct msg as [id hdrs rs]. unfold thread_ids.
  change (preorder (Msg id hdrs rs)) with (Msg id hdrs rs :: (rs ≫= preorder)).
  rewrite fmap_cons. f_equal.
  induction rs as [|r rs IH]; [done|].
  rewrite !bind_cons, fmap_app. by rewrite IH.
Qed.

(** A write planned for the replies is a write to a message below the
    root. *)
Lemma plan_replies_writes EMAIL db0 rs mute addressed id tag :
  (id, tag) ∈ (rs ≫= λ reply, plan EMAIL db0 reply mute addressed) →
  id ∈ (rs ≫= thread_ids).
Proof.
  rewrite !list_elem_of_bind. intros (r & Hin & Hr).
  exists r. split; [|done]. by apply plan_writes in Hin as [? _].
Qed.

(** C7: at the root of a thread (no parent addressing) nothing is
    inherited, whatever [parent_muted] is: the decision is true exactly
    when the root carries the command tag, and the call writes the muted
    tag on the root in that case only.  With distinct message ids in
    the thread, the root carries the muted tag after the run only if it
    carried it already or carries the command tag. *)
Theorem root_muted_only_by_command EMAIL root parent_muted db :
  let db' := exec (apply_mute EMAIL root parent_muted None) db in
  let commanded := bool_decide (MUTE_CMD_TAG ∈ tags_of db (message_id root)) in
  mute_decision (tags_of db (message_id root)) parent_muted None
    (from_msg EMAIL root) = commanded
  ∧ (∃ below,
       journal_since db db' = own_writes (message_id root) commanded ++ below
       ∧ ∀ id tag, (id, tag) ∈ below → id ∈ (replies root ≫= thread_ids))
  ∧ (NoDup (thread_ids root) →
     MUTED_TAG ∈ tags_of db' (message_id root) ↔
     MUTED_TAG ∈ tags_of db (message_id root)
     ∨ MUTE_CMD_TAG ∈ tags_of db (message_id root)).
Proof.
  intros db' commanded.
  assert (mute_decision (tags_of db (message_id root)) parent_muted None
            (from_msg EMAIL root) = commanded) as Hmute.
  { unfold mute_decision, commanded. case_decide.
    - by rewrite bool_decide_eq_true_2.
    - rewrite bool_decide_eq_false_2 by done. by destruct parent_muted. }
  pose proof (apply_mute_journal EMAIL root parent_muted None db) as Hjournal.
  simpl in Hjournal. rewrite Hmute in Hjournal. fold db' in Hjournal.
  split_and!; [exact Hmute | |].
  { eexists. split; [exact Hjournal|].
    intros id tag. apply plan_replies_writes. }
  intros Hids.
  rewrite thread_ids_unfold in Hids. apply NoDup_cons in Hids as [Hroot _].
  unfold db'. rewrite apply_mute_self_plan, elem_of_tags_of_write_all.
  rewrite plan_unfold. simpl. rewrite Hmute.
  rewrite elem_of_app. unfold own_writes, commanded.
  split.
  - intros [Hold | [Hown | Hbelow]]; [by left | |].
    + case_bool_decide; [by right|].
      apply list_elem_of_singleton in Hown. by simplify_eq.
    + by apply plan_replies_writes in Hbelow.
  - intros [Hold | Hcmd]; [by left|].
    right. left. rewrite bool_decide_eq_true_2 by done. by left.
Qed.

Lemma root_muted_only_by_command_witness :
  NoDup (thread_ids sample_R)
  ∧ (MUTED_TAG ∈
       tags_of (exec (apply_mute me sample_R false None) sample_db)
         (message_id sample_R) ↔
     MUTED_TAG ∈ tags_of sample_db (message_id sample_R)
     ∨ MUTE_CMD_TAG ∈ tags_of sample_db (message_id sample_R)).
Proof.
  assert (NoDup (thread_ids sample_R)) as Hids.
  { by_evaluation. }
  split; [exact Hids|].
  exact (proj2 (proj2
    (root_muted_only_by_command me sample_R false sample_db)) Hids).
Defined.

(** The loop of the main program calls [apply_mute] on each thread in
    turn, as on a root. *)
Lemma exec_mute_threads_cons EMAIL thread threads db :
  exec (mute_threads EMAIL (thread :: threads)) db
  = exec (mute_threads EMAIL threads)
      (exec (apply_mute EMAIL thread false None) db).
Proof.
  apply (exec_for_each_cons (λ root, apply_mute EMAIL root false None)).
Qed.

(** ** Repeated runs *)

(** C5: a second run of [apply_mute] from the same message with the same
    parent context, nothing else having touched the database in between,
    leaves the tag index of the first run as it is; so the messages that
    carry the muted tag after two runs are those that carry it after
    one. *)
Theorem apply_mute_idempotent EMAIL msg parent_muted parent_addressed db :
  let once := exec (apply_mute EMAIL msg parent_muted parent_addressed) db in
  let twice :=
    exec (apply_mute EMAIL msg parent_muted parent_addressed ;;
          apply_mute EMAIL msg parent_muted parent_addressed) db in
  carrying MUTED_TAG twice = carrying MUTED_TAG once
  ∧ tag_index twice = tag_index once.
Proof.
  intros once twice.
  assert (tag_index twice = tag_index once) as Hindex.
  { unfold twice, once. rewrite exec_bind. simpl.
    rewrite (run_unit (apply_mute _ _ _ _) db). simpl.
    rewrite (apply_mute_self_plan _ _ _ _ db).
    rewrite (apply_mute_plan EMAIL db) by apply plan_same_commands.
    apply write_all_twice. }
  split; [by apply carrying_index | done].
Qed.

Lemma apply_mute_grows EMAIL msg pm pa db id :
  tags_of db id ⊆ tags_of (exec (apply_mute EMAIL msg pm pa) db) id.
Proof.
  intros tag Hin. rewrite apply_mute_self_plan.
  apply elem_of_tags_of_write_all. by left.
Qed.

Lemma run_calls_grows cs db id :
  tags_of db id ⊆ tags_of (exec (run_calls cs) db) id.
Proof.
  revert db. induction cs as [|c cs IH]; intros db; [done|].
  unfold run_calls. rewrite exec_for_each_cons.
  etrans; [|apply IH]. apply apply_mute_grows.
Qed.

(** Runs change the database by [add_tag] alone: what they leave is
    the database they found with their journal written to it. *)
Lemma run_calls_writes cs db :
  exec (run_calls cs) db
  = write_all (journal_since db (exec (run_calls cs) db)) db.
Proof.
  assert (∃ ws, exec (run_calls cs) db = write_all ws db) as [ws Hws].
  { revert db. induction cs as [|c cs IH]; intros db; [by exists []|].
    unfold run_calls. rewrite exec_for_each_cons.
    unfold run_call at 2. rewrite apply_mute_self_plan.
    edestruct IH as [ws ->]. eexists. symmetry. apply write_all_app. }
  by rewrite Hws, journal_since_write_all.
Qed.

Lemma write_all_grows ws db id : tags_of db id ⊆ tags_of (write_all ws db) id.
Proof. intros tag Hin. apply elem_of_tags_of_write_all. by left. Qed.

(** C6: over any sequence of runs, whatever their arguments, a tag that
    a message has at some point (the muted tag and the processed marker
    among them) is still on it after every later run: tags are added,
    never removed.  The same holds between the single writes of the
    runs: the database after the first [n] writes of the journal has no
    tag that is missing after [k] more. *)
Theorem tags_never_removed (earlier later : list Call) db :
  let before := exec (run_calls earlier) db in
  let after := exec (run_calls (earlier ++ later)) db in
  let writes := journal_since db after in
  carrying MUTED_TAG before ⊆ carrying MUTED_TAG after
  ∧ carrying PROCESSED_TAG before ⊆ carrying PROCESSED_TAG after
  ∧ (∀ id, tags_of before id ⊆ tags_of after id)
  ∧ after = write_all writes db
  ∧ (∀ n k id,
       tags_of (write_all (take n writes) db) id
       ⊆ tags_of (write_all (take (n + k) writes) db) id).
Proof.
  intros before after writes.
  assert (∀ id, tags_of before id ⊆ tags_of after id) as Hgrows.
  { intros id. unfold after, run_calls. rewrite exec_for_each_app.
    apply run_calls_grows. }
  split_and!.
  - intros id. rewrite !elem_of_carrying. apply Hgrows.
  - intros id. rewrite !elem_of_carrying. apply Hgrows.
  - done.
  - apply run_calls_writes.
  - intros n k id. rewrite <- take_take_drop, write_all_app.
    apply write_all_grows.
Qed.

(** ** The traversal *)

(** The processed marker is written once for every message of the
    thread, in the order of the traversal. *)
Lemma plan_processed EMAIL db0 msg pm pa :
  filter (λ w, w.2 = PROCESSED_TAG) (plan EMAIL db0 msg pm pa)
  = (λ m, (message_id m, PROCESSED_TAG)) <$> preorder msg.
Proof.
  revert pm pa.
  induction msg as [id hdrs rs IH] using Message_rose_ind; intros pm pa.
  change (preorder (Msg id hdrs rs)) with (Msg id hdrs rs :: (rs ≫= preorder)).
  cbn [plan]. rewrite filter_app, fmap_cons.
  generalize (mute_decision (tags_of db0 id) pm pa
                (from_msg EMAIL (Msg id hdrs rs))) as mute.
  generalize (from_msg EMAIL (Msg id hdrs rs)) as addressed.
  intros addressed mute.
  assert (filter (λ w : string * string, w.2 = PROCESSED_TAG)
            (if mute then [(id, MUTED_TAG)] else []) = []) as ->.
  { by destruct mute. }
  rewrite filter_cons_True by done. simpl. f_equal.
  induction IH as [|r rs Hr _ IHrs]; [done|].
  rewrite !bind_cons, filter_app, fmap_app. by rewrite Hr, IHrs.
Qed.

Lemma plan_processed_elem EMAIL db0 msg pm pa id :
  (id, PROCESSED_TAG) ∈ plan EMAIL db0 msg pm pa ↔ id ∈ thread_ids msg.
Proof.
  split; [by intros [? _]%plan_writes|].
  unfold thread_ids. rewrite list_elem_of_fmap. intros (m & -> & Hm).
  assert ((message_id m, PROCESSED_TAG)
          ∈ filter (λ w, w.2 = PROCESSED_TAG) (plan EMAIL db0 msg pm pa))
    as Hin.
  { rewrite plan_processed. apply list_elem_of_fmap. by exists m. }
  by apply list_elem_of_filter in Hin as [_ ?].
Qed.

(** Without regard to the recursion limit: the call returns, and the
    processed marker, which each call writes once on the message it was
    called with, has been written once per message of the thread, in
    traversal order. *)
Lemma apply_mute_processed_preorder EMAIL msg parent_muted parent_addressed db :
  ∃ db',
    apply_mute EMAIL msg parent_muted parent_addressed db = (tt, db')
    ∧ filter (λ w, w.2 = PROCESSED_TAG) (journal_since db db')
      = (λ m, (message_id m, PROCESSED_TAG)) <$> preorder msg.
Proof.
  exists (exec (apply_mute EMAIL msg parent_muted parent_addressed) db).
  split; [apply run_unit|].
  rewrite apply_mute_self_plan, journal_since_write_all.
  apply plan_processed.
Qed.

(** C10: a run adds to the tags of a message of the thread the processed
    marker, possibly the muted tag, and nothing else; it leaves the tags
    of every other message as they were; no tag is removed, and no tag
    other than those two (so not the command tag) appears or
    disappears. *)
Theorem apply_mute_frame EMAIL msg parent_muted parent_addressed db id :
  let db' := exec (apply_mute EMAIL msg parent_muted parent_addressed) db in
  (id ∈ thread_ids msg →
   tags_of db' id = tags_of db id ∪ {[PROCESSED_TAG]}
   ∨ tags_of db' id = tags_of db id ∪ {[MUTED_TAG; PROCESSED_TAG]})
  ∧ (id ∉ thread_ids msg → tags_of db' id = tags_of db id)
  ∧ (∀ tag, tag ≠ MUTED_TAG → tag ≠ PROCESSED_TAG →
       tag ∈ tags_of db' id ↔ tag ∈ tags_of db id)
  ∧ tags_of db id ⊆ tags_of db' id.
Proof.
  intros db'.
  set (ws := plan EMAIL db msg parent_muted parent_addressed).
  assert (∀ tag, tag ∈ tags_of db' id ↔ tag ∈ tags_of db id ∨ (id, tag) ∈ ws)
    as Htags.
  { intros tag. unfold db'. rewrite apply_mute_self_plan.
    apply elem_of_tags_of_write_all. }
  assert (∀ tag, (id, tag) ∈ ws →
            id ∈ thread_ids msg ∧ (tag = MUTED_TAG ∨ tag = PROCESSED_TAG))
    as Hws by (intros tag; apply plan_writes).
  assert (id ∈ thread_ids msg → (id, PROCESSED_TAG) ∈ ws) as Hprocessed
    by apply plan_processed_elem.
  split_and!.
  - intros Hid. specialize (Hprocessed Hid).
    destruct (decide ((id, MUTED_TAG) ∈ ws)) as [Hmuted | Hmuted].
    + right. apply set_eq. intros tag. rewrite Htags. set_solver.
    + left. apply set_eq. intros tag. rewrite Htags. set_solver.
  - intros Hid. apply set_eq. intros tag. rewrite Htags. naive_solver.
  - intros tag Hm Hp. rewrite Htags. naive_solver.
  - intros tag Hin. apply Htags. by left.
Qed.

Lemma apply_mute_frame_witness :
  "a@thread" ∈ thread_ids sample_R
  ∧ ("z@elsewhere" ∉ thread_ids sample_R)
  ∧ (tags_of (exec (apply_mute me sample_R false None) sample_db) "a@thread"
     = tags_of sample_db "a@thread" ∪ {[PROCESSED_TAG]}
     ∨ tags_of (exec (apply_mute me sample_R false None) sample_db) "a@thread"
       = tags_of sample_db "a@thread" ∪ {[MUTED_TAG; PROCESSED_TAG]})
  ∧ tags_of (exec (apply_mute me sample_R false None) sample_db) "z@elsewhere"
    = tags_of sample_db "z@elsewhere".
Proof.
  assert ("a@thread" ∈ thread_ids sample_R) as Hin.
  { by_evaluation. }
  assert ("z@elsewhere" ∉ thread_ids sample_R) as Hout.
  { by_evaluation. }
  split_and!; [exact Hin | exact Hout | |].
  - exact (proj1 (apply_mute_frame me sample_R false None sample_db "a@thread")
             Hin).
  - exact (proj1 (proj2
             (apply_mute_frame me sample_R false None sample_db "z@elsewhere"))
             Hout).
Defined.

(** ** Containment of the address in a header *)

Section Containment.

Implicit Types needle hay sep : string.

Lemma str_app_empty hay : "" +:+ hay = hay.
Proof. done. Qed.

Lemma str_app_cons c s hay : String c s +:+ hay = String c (s +:+ hay).
Proof. done. Qed.

Lemma app_assoc_str s1 s2 s3 : (s1 +:+ s2) +:+ s3 = s1 +:+ s2 +:+ s3.
Proof.
  induction s1 as [|c s1 IH]; [done|]. rewrite !str_app_cons. by rewrite IH.
Qed.

Lemma chars_app s1 s2 : Str.chars (s1 +:+ s2) = Str.chars s1 ++ Str.chars s2.
Proof.
  induction s1 as [|c s1 IH]; [done|]. rewrite str_app_cons. simpl. by rewrite IH.
Qed.

Lemma contains_unfold needle hay :
  Str.contains needle hay
  = Str.startswith needle hay ||
    match hay with
    | EmptyString => false
    | String _ hay' => Str.contains needle hay'
    end.
Proof. by destruct hay. Qed.

Lemma startswith_empty hay : Str.startswith "" hay = true.
Proof. by destruct hay. Qed.

Lemma startswith_of_empty needle :
  Str.startswith needle "" = true → needle = "".
Proof. by destruct needle. Qed.

Lemma startswith_cons a needle b hay :
  Str.startswith (String a needle) (String b hay) = true
  ↔ a = b ∧ Str.startswith needle hay = true.
Proof. simpl. case_decide; naive_solver. Qed.

Lemma startswith_spec needle hay :
  Str.startswith needle hay = true ↔ ∃ after, hay = needle +:+ after.
Proof.
  revert hay. induction needle as [|a needle IH]; intros hay.
  - rewrite startswith_empty. split; [|done]. by exists hay.
  - destruct hay as [|b hay].
    + split; [done|]. by intros [after Hafter].
    + rewrite startswith_cons, IH. split.
      * intros [-> [after ->]]. by exists after.
      * intros [after Hafter]. rewrite str_app_cons in Hafter.
        simplify_eq. eauto.
Qed.

(** [needle in hay] decides that [needle] occurs in [hay]. *)
Lemma contains_spec needle hay :
  Str.contains needle hay = true ↔ Str.occurs needle hay.
Proof.
  unfold Str.occurs. split.
  - induction hay as [|c hay IH]; rewrite contains_unfold, orb_true_iff.
    + intros [Hstart | ?]; [|done].
      apply startswith_of_empty in Hstart as ->. by exists "", "".
    + intros [Hstart | Hlater].
      * apply startswith_spec in Hstart as [after ->]. by exists "", after.
      * destruct (IH Hlater) as (before & after & ->).
        by exists (String c before), after.
  - intros (before & after & ->).
    induction before as [|c before IH]; rewrite contains_unfold, orb_true_iff.
    + left. apply startswith_spec. by exists after.
    + right. by rewrite str_app_cons.
Qed.

Lemma contains_empty hay : Str.contains "" hay = true.
Proof. apply contains_spec. by exists "", hay. Qed.

Lemma contains_app_l needle hay rest :
  Str.contains needle hay = true → Str.contains needle (hay +:+ rest) = true.
Proof.
  rewrite !contains_spec. intros (before & after & ->).
  exists before, (after +:+ rest). by rewrite !app_assoc_str.
Qed.

Lemma contains_app_r needle front hay :
  Str.contains needle hay = true → Str.contains needle (front +:+ hay) = true.
Proof.
  rewrite !contains_spec. intros (before & after & ->).
  exists (front +:+ before), after. by rewrite !app_assoc_str.
Qed.

(** A prefix of [u +:+ v] either is a prefix of [u] or runs over the
    end of [u] into [v]. *)
Lemma startswith_app needle u v :
  Str.startswith needle (u +:+ v) = true →
  Str.startswith needle u = true
  ∨ ∃ c tail, Str.chars needle = Str.chars u ++ c :: tail
              ∧ Str.startswith (String c "") v = true.
Proof.
  revert u. induction needle as [|a needle IH]; intros u; [by left|].
  destruct u as [|b u].
  - rewrite str_app_empty. intros Hstart. right. exists a, (Str.chars needle).
    split; [done|]. destruct v as [|d v]; [done|].
    apply startswith_cons in Hstart as [-> _]. simpl. by rewrite decide_True.
  - rewrite str_app_cons, !startswith_cons. intros [-> Hstart].
    destruct (IH u Hstart) as [Hu | (c & tail & Hchars & Hc)]; [by left|].
    right. exists c, tail. split; [|done]. simpl. by rewrite Hchars.
Qed.

(** The needle cannot begin at a character it does not have. *)
Lemma contains_skip_part needle part hay :
  (∀ c, c ∈ Str.chars part → c ∉ Str.chars needle) →
  Str.contains needle (part +:+ hay) = true →
  Str.contains needle hay = true.
Proof.
  induction part as [|c part IH]; intros Hpart; [done|].
  rewrite str_app_cons, contains_unfold, orb_true_iff.
  intros [Hstart | Hlater].
  - destruct needle as [|a needle']; [apply contains_empty|].
    apply startswith_cons in Hstart as [-> _].
    destruct (Hpart c); simpl; by left.
  - apply IH; [|done]. intros d Hd. apply Hpart. simpl. by right.
Qed.

Section Separator.

Context (needle sep : string).
Hypothesis sep_nonempty : sep ≠ "".
Hypothesis sep_foreign : ∀ c, c ∈ Str.chars needle → c ∉ Str.chars sep.

Lemma contains_across_sep front back :
  Str.contains needle (front +:+ sep +:+ back)
  = Str.contains needle front || Str.contains needle back.
Proof using sep_nonempty sep_foreign.
  apply eq_true_iff_eq. rewrite orb_true_iff. split.
  - induction front as [|x front IH].
    + rewrite str_app_empty. intros Hin. right.
      apply (contains_skip_part needle sep); [|done].
      intros c Hsep Hneedle. by apply (sep_foreign c).
    + rewrite str_app_cons, contains_unfold, orb_true_iff.
      intros [Hstart | Hlater].
      * rewrite <- str_app_cons in Hstart.
        apply startswith_app in Hstart
          as [Hfront | (c & tail & Hchars & Hc)].
        { left. rewrite contains_unfold. by rewrite Hfront. }
        destruct sep as [|s sep']; [done|].
        rewrite str_app_cons in Hc. apply startswith_cons in Hc as [-> _].
        destruct (sep_foreign s).
        -- rewrite Hchars. apply elem_of_app. right. by left.
        -- by left.
      * destruct (IH Hlater) as [Hfront | Hback]; [|by right].
        left. rewrite contains_unfold, Hfront. apply orb_true_r.
  - intros [Hfront | Hback].
    + by apply contains_app_l.
    + by apply contains_app_r, contains_app_r.
Qed.

Lemma contains_join parts :
  needle ≠ "" →
  Str.contains needle (Str.join sep parts) = true
  ↔ ∃ part, part ∈ parts ∧ Str.contains needle part = true.
Proof using sep_nonempty sep_foreign.
  intros Hneedle. induction parts as [|p [|q parts] IH].
  - change (Str.join sep []) with "".
    split; [|by intros (? & ?%elem_of_nil & _)].
    rewrite contains_unfold, orb_false_r.
    by intros ?%startswith_of_empty.
  - simpl. split; [intros ?; exists p; by rewrite list_elem_of_singleton|].
    by intros (? & ->%list_elem_of_singleton & ?).
  - change (Str.join sep (p :: q :: parts))
      with (p +:+ sep +:+ Str.join sep (q :: parts)).
    rewrite contains_across_sep, orb_true_iff, IH. split.
    + intros [Hp | (part & Hin & Hpart)].
      * exists p. split; [by left | done].
      * exists part. split; [by right | done].
    + intros (part & Hin & Hpart). apply elem_of_cons in Hin as [-> | Hin].
      * by left.
      * right. by exists part.
Qed.

(** The order of the parts does not matter. *)
Lemma contains_join_Permutation parts parts' :
  parts ≡ₚ parts' →
  Str.contains needle (Str.join sep parts)
  = Str.contains needle (Str.join sep parts').
Proof using sep_nonempty sep_foreign.
  intros Hperm. destruct (decide (needle = "")) as [-> | Hneedle].
  { by rewrite !contains_empty. }
  apply eq_true_iff_eq. rewrite !contains_join by done.
  by setoid_rewrite Hperm.
Qed.

End Separator.

End Containment.

(** ** The addressing of a message *)

Lemma from_msg_cases EMAIL msg :
  from_msg EMAIL msg
  = if Str.contains EMAIL (get_header msg "To") then TO
    else if Str.contains EMAIL (get_header msg "Cc") then CC else NONE.
Proof. done. Qed.

(** C3 (amended): the addressing is TO when the address occurs in the
    raw text of the To header as a run of characters, compared exactly,
    letter case included; else CC when it so occurs in the Cc header;
    else NONE.  It does not depend on the order of the parts of a header
    that are joined by a separator sharing no character with the
    address. *)
Theorem from_msg_by_containment EMAIL :
  (∀ msg,
     (from_msg EMAIL msg = TO ↔ Str.occurs EMAIL (get_header msg "To"))
     ∧ (from_msg EMAIL msg = CC ↔
        ¬ Str.occurs EMAIL (get_header msg "To")
        ∧ Str.occurs EMAIL (get_header msg "Cc"))
     ∧ (from_msg EMAIL msg = NONE ↔
        ¬ Str.occurs EMAIL (get_header msg "To")
        ∧ ¬ Str.occurs EMAIL (get_header msg "Cc")))
  ∧ (∀ sep msg msg' tos tos' ccs ccs',
       sep ≠ "" →
       (∀ c, c ∈ Str.chars EMAIL → c ∉ Str.chars sep) →
       get_header msg "To" = Str.join sep tos →
       get_header msg' "To" = Str.join sep tos' →
       get_header msg "Cc" = Str.join sep ccs →
       get_header msg' "Cc" = Str.join sep ccs' →
       tos ≡ₚ tos' → ccs ≡ₚ ccs' →
       from_msg EMAIL msg = from_msg EMAIL msg').
Proof.
  split.
  - intros msg. rewrite from_msg_cases, <- !contains_spec.
    destruct (Str.contains EMAIL (get_header msg "To")),
             (Str.contains EMAIL (get_header msg "Cc")); naive_solver.
  - intros sep msg msg' tos tos' ccs ccs' Hsep Hforeign HTo HTo' HCc HCc'
      Htos Hccs.
    rewrite !from_msg_cases, HTo, HTo', HCc, HCc'.
    rewrite (contains_join_Permutation EMAIL sep Hsep Hforeign tos tos') by done.
    by rewrite (contains_join_Permutation EMAIL sep Hsep Hforeign ccs ccs').
Qed.

Lemma from_msg_by_containment_witness :
  from_msg me (mail "1@thread" (Str.join ", " ["list@example.org"; me]) "" [])
  = from_msg me (mail "2@thread" (Str.join ", " [me; "list@example.org"]) "" []).
Proof.
  apply (proj2 (from_msg_by_containment me) ", " _ _
           ["list@example.org"; me] [me; "list@example.org"] [] []).
  - done.
  - intros c Hc Hsep. revert Hc.
    apply elem_of_cons in Hsep as [-> | Hsep].
    { change ("," ∉ Str.chars me)%char. by_evaluation. }
    apply list_elem_of_singleton in Hsep as ->.
    change (" " ∉ Str.chars me)%char. by_evaluation.
  - by vm_compute.
  - by vm_compute.
  - by vm_compute.
  - by vm_compute.
  - apply perm_swap.
  - done.
Defined.

(** C3 as it was stated fails: the two sample mails differ only in the
    letter case of the To header, which names the user in both, and the
    first is TO where the second is NONE. *)
Lemma from_msg_case_sensitive :
  Str.lower (get_header sample_upper "To")
  = Str.lower (get_header sample_lower "To")
  ∧ get_header sample_upper "Cc" = get_header sample_lower "Cc"
  ∧ from_msg me sample_lower = TO
  ∧ from_msg me sample_upper = NONE.
Proof. split_and!; by vm_compute. Qed.

(** C8: with the empty string for the address, every message is TO:
    the empty string is found in every header text. *)
Theorem empty_email_is_TO msg :
  from_msg "" msg = TO ∧ ∀ hay, Str.contains "" hay = true.
Proof.
  split; [|apply contains_empty].
  by rewrite from_msg_cases, contains_empty.
Qed.

(** ** The three-message thread *)

(** C4 as it was stated fails: after the run on the sample thread the
    reply and the reply to the reply do not carry the muted tag. *)
Lemma sample_thread_reply_not_muted :
  let db' := exec (apply_mute me sample_R false None) sample_db in
  (replies sample_R = [sample_A] ∧ replies sample_A = [sample_B]
   ∧ replies sample_B = [])
  ∧ (MUTE_CMD_TAG ∈ tags_of sample_db (message_id sample_R)
     ∧ from_msg me sample_R = NONE)
  ∧ ((MUTE_CMD_TAG ∉ tags_of sample_db (message_id sample_A))
     ∧ from_msg me sample_A = CC)
  ∧ ((MUTE_CMD_TAG ∉ tags_of sample_db (message_id sample_B))
     ∧ from_msg me sample_B = CC)
  ∧ (MUTED_TAG ∉ tags_of db' (message_id sample_A))
  ∧ (MUTED_TAG ∉ tags_of db' (message_id sample_B))
  ∧ ¬ (MUTED_TAG ∈ tags_of db' (message_id sample_R)
       ∧ MUTED_TAG ∈ tags_of db' (message_id sample_A)
       ∧ MUTED_TAG ∈ tags_of db' (message_id sample_B)).
Proof.
  split_and!; try done; by_evaluation.
Qed.

(** C4 (amended): in the thread of a root R that carries the command tag
    and is addressed NONE, its reply A and A's reply B, both without the
    command tag and addressed CC, the run from R writes the muted tag on
    R alone: A is Cc'd where R was not addressed, which stops the
    propagation, and B is below an unmuted parent.  All three get the
    processed marker. *)
Theorem thread_mutes_root_only EMAIL R A B db :
  replies R = [A] → replies A = [B] → replies B = [] →
  MUTE_CMD_TAG ∈ tags_of db (message_id R) →
  MUTE_CMD_TAG ∉ tags_of db (message_id A) →
  MUTE_CMD_TAG ∉ tags_of db (message_id B) →
  from_msg EMAIL R = NONE → from_msg EMAIL A = CC → from_msg EMAIL B = CC →
  let db' := exec (apply_mute EMAIL R false None) db in
  journal_since db db'
  = [(message_id R, MUTED_TAG); (message_id R, PROCESSED_TAG);
     (message_id A, PROCESSED_TAG); (message_id B, PROCESSED_TAG)]
  ∧ MUTED_TAG ∈ tags_of db' (message_id R)
  ∧ (MUTED_TAG ∈ tags_of db' (message_id A) ↔
     MUTED_TAG ∈ tags_of db (message_id A))
  ∧ (MUTED_TAG ∈ tags_of db' (message_id B) ↔
     MUTED_TAG ∈ tags_of db (message_id B)).
Proof.
  intros HR HA HB HcmdR HcmdA HcmdB HaddrR HaddrA HaddrB db'.
  assert (plan EMAIL db R false None
          = [(message_id R, MUTED_TAG); (message_id R, PROCESSED_TAG);
             (message_id A, PROCESSED_TAG); (message_id B, PROCESSED_TAG)])
    as Hplan.
  { rewrite plan_unfold, HR, bind_singleton. simpl.
    rewrite plan_unfold, HA, bind_singleton. simpl.
    rewrite plan_unfold, HB. simpl.
    rewrite HaddrR, HaddrA, HaddrB.
    rewrite (mute_decision_command _ _ _ _ HcmdR).
    rewrite (mute_decision_no_command _ _ _ _ HcmdA). simpl.
    rewrite (mute_decision_no_command _ _ _ _ HcmdB). done. }
  assert (message_id A ≠ message_id R) as HAR by (by intros Heq; rewrite Heq in HcmdA).
  assert (message_id B ≠ message_id R) as HBR by (by intros Heq; rewrite Heq in HcmdB).
  unfold db'. rewrite apply_mute_self_plan, journal_since_write_all.
  split; [exact Hplan|].
  rewrite !elem_of_tags_of_write_all, Hplan.
  split_and!.
  - right. by left.
  - split; [|by left]. intros [Hold | Hnew]; [done|].
    set_solver.
  - split; [|by left]. intros [Hold | Hnew]; [done|].
    set_solver.
Qed.

Lemma thread_mutes_root_only_witness :
  journal_since sample_db (exec (apply_mute me sample_R false None) sample_db)
  = [("r@thread", MUTED_TAG); ("r@thread", PROCESSED_TAG);
     ("a@thread", PROCESSED_TAG); ("b@thread", PROCESSED_TAG)].
Proof.
  apply (thread_mutes_root_only me sample_R sample_A sample_B sample_db).
  - done.
  - done.
  - done.
  - by_evaluation.
  - by_evaluation.
  - by_evaluation.
  - by vm_compute.
  - by vm_compute.
  - by vm_compute.
Defined.

(** * Further properties of the script *)

(** ** What a run writes *)

Lemma preorder_reply id hdrs rs reply m :
  reply ∈ rs → m ∈ preorder reply → m ∈ preorder (Msg id hdrs rs).
Proof.
  intros Hreply Hm. simpl. right. apply list_elem_of_bind. by exists reply.
Qed.

Lemma preorder_self msg : msg ∈ preorder msg.
Proof. destruct msg. by left. Qed.

Lemma thread_ids_self msg : message_id msg ∈ thread_ids msg.
Proof. rewrite thread_ids_unfold. by left. Qed.

Lemma plan_cons EMAIL db0 id hdrs rs pm pa :
  let msg := Msg id hdrs rs in
  let addressed := from_msg EMAIL msg in
  let mute := mute_decision (tags_of db0 id) pm pa addressed in
  plan EMAIL db0 msg pm pa
  = own_writes id mute ++
    (rs ≫= λ reply, plan EMAIL db0 reply mute (Some addressed)).
Proof. apply (plan_unfold EMAIL db0 (Msg id hdrs rs)). Qed.

(** X5: the writes of a run depend on the database through the command tag
    alone: that a message was already processed, or already muted, does
    not change what a later run decides for it or for its replies. *)
Theorem writes_depend_on_commands_only EMAIL msg parent_muted parent_addressed
    db1 db2 :
  same_commands db1 db2 →
  journal_since db1 (exec (apply_mute EMAIL msg parent_muted parent_addressed) db1)
  = journal_since db2
      (exec (apply_mute EMAIL msg parent_muted parent_addressed) db2).
Proof.
  intros Hsame. rewrite !apply_mute_self_plan, !journal_since_write_all.
  by apply plan_ext.
Qed.

Lemma writes_depend_on_commands_only_witness :
  let handled := exec (apply_mute me sample_R false None) sample_db in
  same_commands handled sample_db
  ∧ journal_since handled (exec (apply_mute me sample_R false None) handled)
    = journal_since sample_db
        (exec (apply_mute me sample_R false None) sample_db).
Proof.
  assert (same_commands (exec (apply_mute me sample_R false None) sample_db)
            sample_db) as Hsame.
  { rewrite apply_mute_self_plan. apply plan_same_commands. }
  split; [exact Hsame|].
  exact (writes_depend_on_commands_only me sample_R false None _ _ Hsame).
Defined.

(** X2: in a thread where no message carries the command tag, a call whose
    parent is not muted writes the processed marker on every message, in
    traversal order, and nothing else: no message is muted. *)
Theorem no_command_no_mute EMAIL msg parent_addressed db :
  (∀ id, id ∈ thread_ids msg → MUTE_CMD_TAG ∉ tags_of db id) →
  journal_since db (exec (apply_mute EMAIL msg false parent_addressed) db)
  = (λ m, (message_id m, PROCESSED_TAG)) <$> preorder msg.
Proof.
  rewrite apply_mute_self_plan, journal_since_write_all.
  revert parent_addressed.
  induction msg as [id hdrs rs IH] using Message_rose_ind.
  intros pa Hnone.
  change (preorder (Msg id hdrs rs)) with (Msg id hdrs rs :: (rs ≫= preorder)).
  rewrite plan_cons, fmap_cons. simpl.
  rewrite mute_decision_no_command
    by (apply Hnone, (thread_ids_self (Msg id hdrs rs))).
  simpl. f_equal.
  assert (∀ reply, reply ∈ rs →
            ∀ x, x ∈ thread_ids reply → MUTE_CMD_TAG ∉ tags_of db x) as Hrs.
  { intros reply Hreply x Hx. apply Hnone. by eapply thread_ids_reply. }
  generalize (from_msg EMAIL (Msg id hdrs rs)) as addressed. intros addressed.
  clear Hnone. induction IH as [|r rs Hr _ IHrs]; [done|].
  rewrite !bind_cons, fmap_app.
  rewrite Hr by (apply Hrs; left).
  rewrite IHrs; [done|]. intros reply Hreply. apply Hrs. by right.
Qed.

Lemma no_command_no_mute_witness :
  (∀ id, id ∈ thread_ids sample_A → MUTE_CMD_TAG ∉ tags_of sample_db id)
  ∧ journal_since sample_db (exec (apply_mute me sample_A false None) sample_db)
    = [("a@thread", PROCESSED_TAG); ("b@thread", PROCESSED_TAG)].
Proof.
  assert (∀ id, id ∈ thread_ids sample_A → MUTE_CMD_TAG ∉ tags_of sample_db id)
    as Hnone.
  { intros id Hid.
    apply elem_of_cons in Hid as [-> | Hid]; [by_evaluation|].
    apply list_elem_of_singleton in Hid as ->. by_evaluation. }
  split; [exact Hnone|].
  exact (no_command_no_mute me sample_A None sample_db Hnone).
Defined.

Lemma mute_decision_inherits tags parent addressed :
  Addressed_le addressed parent = true →
  mute_decision tags true (Some parent) addressed = true.
Proof. intros Hle. unfold mute_decision. by case_decide. Qed.

(** X3: in a thread where no reply addresses the user more strongly than
    the message it replies to, a call that mutes its message mutes the
    whole thread: every message gets the muted tag and then the
    processed marker, in traversal order. *)
Theorem calm_thread_all_muted EMAIL msg parent_muted parent_addressed db :
  mute_decision (tags_of db (message_id msg)) parent_muted parent_addressed
    (from_msg EMAIL msg) = true →
  (∀ parent reply,
     parent ∈ preorder msg → reply_of parent reply →
     no_stronger EMAIL parent reply) →
  journal_since db
    (exec (apply_mute EMAIL msg parent_muted parent_addressed) db)
  = preorder msg ≫=
      λ m, [(message_id m, MUTED_TAG); (message_id m, PROCESSED_TAG)].
Proof.
  rewrite apply_mute_self_plan, journal_since_write_all.
  revert parent_muted parent_addressed.
  induction msg as [id hdrs rs IH] using Message_rose_ind.
  intros pm pa Hmute Hcalm.
  change (preorder (Msg id hdrs rs)) with (Msg id hdrs rs :: (rs ≫= preorder)).
  rewrite plan_cons, bind_cons. simpl in Hmute |- *. rewrite Hmute.
  simpl. do 2 f_equal.
  assert (∀ reply, reply ∈ rs →
            no_stronger EMAIL (Msg id hdrs rs) reply
            ∧ ∀ parent reply',
                parent ∈ preorder reply → reply_of parent reply' →
                no_stronger EMAIL parent reply') as Hrs.
  { intros reply Hreply. split.
    - apply Hcalm; [apply preorder_self | done].
    - intros parent reply' Hparent. apply Hcalm. by eapply preorder_reply. }
  unfold no_stronger in Hrs at 1.
  generalize dependent (from_msg EMAIL (Msg id hdrs rs)).
  intros addressed _ Hrs. clear Hcalm.
  induction IH as [|r rs Hr _ IHrs]; [done|].
  rewrite !bind_cons, bind_app.
  destruct (Hrs r) as [Hle Hbelow]; [by left|].
  rewrite Hr; [|by apply mute_decision_inherits | done].
  rewrite IHrs; [done|]. intros reply Hreply. apply Hrs. by right.
Qed.

Lemma calm_thread_all_muted_witness :
  journal_since sample_db_A
    (exec (apply_mute me sample_A false None) sample_db_A)
  = [("a@thread", MUTED_TAG); ("a@thread", PROCESSED_TAG);
     ("b@thread", MUTED_TAG); ("b@thread", PROCESSED_TAG)].
Proof.
  apply (calm_thread_all_muted me sample_A false None sample_db_A).
  - by vm_compute.
  - intros parent reply Hparent Hreply.
    apply elem_of_cons in Hparent as [-> | Hparent].
    + apply list_elem_of_singleton in Hreply as ->. by vm_compute.
    + apply list_elem_of_singleton in Hparent as ->.
      by apply elem_of_nil in Hreply.
Defined.

(** The writes of a run come in blocks, one for each message of the
    thread in traversal order. *)
Lemma plan_blocks EMAIL db msg pm pa :
  ∃ blocks,
    plan EMAIL db msg pm pa = concat blocks
    ∧ Forall2 calls_on (preorder msg) blocks.
Proof.
  revert pm pa. induction msg as [id hdrs rs IH] using Message_rose_ind.
  intros pm pa.
  change (preorder (Msg id hdrs rs)) with (Msg id hdrs rs :: (rs ≫= preorder)).
  rewrite plan_cons. cbv zeta.
  generalize (mute_decision (tags_of db id) pm pa
                (from_msg EMAIL (Msg id hdrs rs))) as mute.
  generalize (from_msg EMAIL (Msg id hdrs rs)) as addressed.
  intros addressed mute.
  assert (∃ blocks,
            (rs ≫= λ reply, plan EMAIL db reply mute (Some addressed))
            = concat blocks
            ∧ Forall2 calls_on (rs ≫= preorder) blocks) as (blocks & Hrs & Hon).
  { induction IH as [|r rs Hr _ IHrs]; [by exists []|].
    destruct (Hr mute (Some addressed)) as (blocks1 & H1 & Hon1).
    destruct IHrs as (blocks2 & H2 & Hon2).
    exists (blocks1 ++ blocks2). rewrite !bind_cons, concat_app, H1, H2.
    split; [done|]. by apply Forall2_app. }
  exists (own_writes id mute :: blocks). rewrite Hrs. split; [done|].
  constructor; [|done]. unfold calls_on, own_writes. simpl.
  destruct mute; auto.
Qed.

Lemma calls_on_filter msg block id :
  calls_on msg block →
  filter (λ w, w.1 = id) block
  = if decide (message_id msg = id) then block else [].
Proof.
  intros [-> | ->]; case_decide as Hid.
  - by rewrite filter_cons_True.
  - by rewrite filter_cons_False.
  - by rewrite !filter_cons_True.
  - by rewrite !filter_cons_False.
Qed.

Lemma blocks_filter_outside msgs blocks id :
  Forall2 calls_on msgs blocks → id ∉ message_id <$> msgs →
  filter (λ w, w.1 = id) (concat blocks) = [].
Proof.
  induction 1 as [|m block msgs blocks Hon _ IH]; [done|].
  rewrite fmap_cons, not_elem_of_cons. intros [Hm Hmsgs].
  cbn [concat]. rewrite filter_app, (calls_on_filter m) by done.
  rewrite decide_False by done. by rewrite IH.
Qed.

Lemma blocks_filter_inside msgs blocks id :
  Forall2 calls_on msgs blocks → NoDup (message_id <$> msgs) →
  id ∈ message_id <$> msgs →
  1 ≤ length (filter (λ w, w.1 = id) (concat blocks)) ≤ 2.
Proof.
  induction 1 as [|m block msgs blocks Hon Hrest IH];
    [by intros _ ?%elem_of_nil|].
  rewrite fmap_cons, NoDup_cons, elem_of_cons. intros [Hfresh Hnodup] Hid.
  cbn [concat]. rewrite filter_app, length_app, (calls_on_filter m) by done.
  case_decide as Hm.
  - subst id. rewrite (blocks_filter_outside msgs) by done.
    destruct Hon as [-> | ->]; simpl; lia.
  - destruct Hid as [-> | Hid]; [done|]. simpl. by apply IH.
Qed.

(** X4: a run calls [add_tag] once or twice for every message of the
    thread: its calls are, message by message in traversal order, the
    processed marker on that message, with or without the muted tag on
    it just before.  With distinct message ids in the thread, each of
    them is thus the subject of one or two calls; and no call is on a
    message outside the thread. *)
Theorem add_tag_calls_bounded EMAIL msg parent_muted parent_addressed db :
  let calls :=
    journal_since db
      (exec (apply_mute EMAIL msg parent_muted parent_addressed) db) in
  (∃ blocks, calls = concat blocks ∧ Forall2 calls_on (preorder msg) blocks)
  ∧ (NoDup (thread_ids msg) →
     ∀ id, id ∈ thread_ids msg →
           1 ≤ length (filter (λ w, w.1 = id) calls) ≤ 2)
  ∧ (∀ id, id ∉ thread_ids msg → filter (λ w, w.1 = id) calls = []).
Proof.
  cbv zeta. rewrite apply_mute_self_plan, journal_since_write_all.
  destruct (plan_blocks EMAIL db msg parent_muted parent_addressed)
    as (blocks & -> & Hon).
  split_and!.
  - by exists blocks.
  - intros Hnodup id Hid. by eapply blocks_filter_inside.
  - intros id Hid. by eapply blocks_filter_outside.
Qed.

Lemma add_tag_calls_bounded_witness :
  NoDup (thread_ids sample_R) ∧ "r@thread" ∈ thread_ids sample_R
  ∧ 1 ≤ length
          (filter (λ w, w.1 = "r@thread")
             (journal_since sample_db
                (exec (apply_mute me sample_R false None) sample_db))) ≤ 2.
Proof.
  assert (NoDup (thread_ids sample_R)) as Hnodup.
  { by_evaluation. }
  assert ("r@thread" ∈ thread_ids sample_R) as Hid.
  { by_evaluation. }
  split_and!; [exact Hnodup | exact Hid | ..];
    apply (proj1 (proj2
             (add_tag_calls_bounded me sample_R false None sample_db))
             Hnodup "r@thread" Hid).
Defined.

(** ** Which messages a run mutes *)

Lemma linked_cons {A} (R : A → A → Prop) x y l :
  linked R (x :: y :: l) ↔ R x y ∧ linked R (y :: l).
Proof. done. Qed.

(** The muted tag is written on the messages at the end of a chain of
    replies along which [mute] stays true. *)
Lemma plan_muted EMAIL db msg pm pa id :
  (id, MUTED_TAG) ∈ plan EMAIL db msg pm pa ↔
  ∃ below target,
    linked reply_of (msg :: below)
    ∧ last (msg :: below) = Some target ∧ message_id target = id
    ∧ mute_along EMAIL db pm pa msg below = true.
Proof.
  revert pm pa. induction msg as [mid hdrs rs IH] using Message_rose_ind.
  intros pm pa. rewrite plan_cons. simpl.
  set (msg := Msg mid hdrs rs).
  set (addressed := from_msg EMAIL msg).
  set (mute := mute_decision (tags_of db mid) pm pa addressed).
  rewrite Forall_forall in IH.
  rewrite elem_of_app, list_elem_of_bind. split.
  - intros [Hown | (r & Hin & Hr)].
    + exists [], msg. unfold own_writes in Hown.
      destruct mute eqn:Hmute; [|set_solver].
      apply elem_of_cons in Hown as [Hown | Hown]; [|set_solver].
      simplify_eq. done.
    + apply (IH r Hr) in Hin as (below & target & Hlinked & Hlast & Hid & Hm).
      by exists (r :: below), target.
  - intros (below & target & Hlinked & Hlast & Hid & Hm).
    destruct below as [|r below].
    + left. change (mute = true) in Hm. simpl in Hlast. simplify_eq.
      unfold own_writes. rewrite Hm. by left.
    + right. apply linked_cons in Hlinked as [Hr Hlinked].
      exists r. split; [|exact Hr]. apply (IH r Hr).
      exists below, target. rewrite last_cons_cons in Hlast. done.
Qed.

(** [mute] is true at the end of a chain when the call on its first
    message inherits and no message of the chain is addressed more
    strongly than the one before, or when that holds below a message of
    the chain that carries the command tag. *)
Lemma mute_along_spec EMAIL db pm pa msg below :
  mute_along EMAIL db pm pa msg below = true ↔
  (pm = true
   ∧ (∃ parent, pa = Some parent
                ∧ Addressed_le (from_msg EMAIL msg) parent = true)
   ∧ linked (no_stronger EMAIL) (msg :: below))
  ∨ ∃ above commander rest,
      msg :: below = above ++ commander :: rest
      ∧ MUTE_CMD_TAG ∈ tags_of db (message_id commander)
      ∧ linked (no_stronger EMAIL) (commander :: rest).
Proof.
  revert msg pm pa. induction below as [|r below IH]; intros msg pm pa.
  - simpl. unfold mute_decision. case_decide as Hcmd.
    + split; [|done]. intros _. right. by exists [], msg, [].
    + split.
      * intros Hm. left. destruct pm; [|done]. destruct pa; [|done]. eauto.
      * intros [(-> & (parent & -> & Hle) & _) | (above & c & rest & Heq & Hc & _)].
        { done. }
        destruct above as [|a [|??]]; simplify_eq/=. done.
  - cbn [mute_along]. rewrite IH. clear IH.
    split.
    + intros [(Hmute & (parent & Hparent & Hle) & Hlinked)
             | (above & c & rest & Heq & Hc & Hlinked)].
      * simplify_eq. unfold mute_decision in Hmute.
        case_decide as Hcmd.
        { right. by exists [], msg, (r :: below). }
        left. destruct pm; [|done]. destruct pa as [p|]; [|done].
        split_and!; [done | by exists p |]. by apply linked_cons.
      * right. exists (msg :: above), c, rest. by rewrite Heq.
    + intros [(-> & (parent & -> & Hle) & Hlinked)
             | (above & c & rest & Heq & Hc & Hlinked)].
      * apply linked_cons in Hlinked as [Hr Hlinked]. left.
        split_and!; [by apply mute_decision_inherits | by eexists | done].
      * destruct above as [|a above]; simplify_eq/=.
        -- apply linked_cons in Hlinked as [Hr Hlinked]. left.
           split_and!; [by apply mute_decision_command | by eexists | done].
        -- right. by exists above, c, rest.
Qed.

(** X1: a run from the root of a thread writes the muted tag on a message
    exactly when the message, or one that it descends from, carries the
    command tag, and from that one down to the message no reply addresses
    the user more strongly than the message it replies to. *)
Theorem muted_iff_commanded_chain EMAIL root db id :
  (id, MUTED_TAG)
    ∈ journal_since db (exec (apply_mute EMAIL root false None) db) ↔
  ∃ above commander below target,
    linked reply_of (above ++ commander :: below)
    ∧ head (above ++ commander :: below) = Some root
    ∧ last (commander :: below) = Some target ∧ message_id target = id
    ∧ MUTE_CMD_TAG ∈ tags_of db (message_id commander)
    ∧ linked (no_stronger EMAIL) (commander :: below).
Proof.
  rewrite apply_mute_self_plan, journal_since_write_all, plan_muted. split.
  - intros (path & target & Hlinked & Hlast & Hid & Hmute).
    apply mute_along_spec in Hmute
      as [(? & _) | (above & c & rest & Heq & Hc & Hcalm)]; [done|].
    exists above, c, rest, target. rewrite <- Heq. split_and!; try done.
    rewrite Heq in Hlast. by rewrite last_app_cons in Hlast.
  - intros (above & c & rest & target & Hlinked & Hhead & Hlast & Hid & Hc
            & Hcalm).
    destruct (above ++ c :: rest) as [|first path] eqn:Heq; [done|].
    simpl in Hhead. simplify_eq.
    exists path, target. split_and!; try done.
    + rewrite <- Heq. by rewrite last_app_cons.
    + apply mute_along_spec. right. by exists above, c, rest.
Qed.

(** ** The tag index after a batch of writes *)

Lemma dom_write_all ws db id :
  id ∈ dom (tag_index (write_all ws db)) ↔
  id ∈ dom (tag_index db) ∨ id ∈ ws.*1.
Proof.
  revert db. induction ws as [|w ws IH]; intros db.
  - simpl. rewrite elem_of_nil. naive_solver.
  - simpl. rewrite IH. simpl. rewrite dom_insert_L, elem_of_union,
      elem_of_singleton, elem_of_cons. naive_solver.
Qed.

(** Two databases have the same tag index when they know the same
    messages and give them the same tags. *)
Lemma tag_index_ext db1 db2 :
  (∀ id, id ∈ dom (tag_index db1) ↔ id ∈ dom (tag_index db2)) →
  (∀ id, tags_of db1 id = tags_of db2 id) →
  tag_index db1 = tag_index db2.
Proof.
  intros Hdom Htags. apply map_eq. intros id.
  specialize (Hdom id). specialize (Htags id).
  rewrite !elem_of_dom in Hdom. unfold tags_of in Htags.
  destruct (tag_index db1 !! id) as [t1|] eqn:H1,
           (tag_index db2 !! id) as [t2|] eqn:H2; simpl in *.
  - by rewrite Htags.
  - destruct Hdom as [Hdom _]. by destruct Hdom.
  - destruct Hdom as [_ Hdom]. by destruct Hdom.
  - done.
Qed.

(** The tag index after a batch of writes depends on which writes are in
    the batch, not on their order or number. *)
Lemma write_all_index_ext ws1 ws2 db :
  (∀ w, w ∈ ws1 ↔ w ∈ ws2) →
  tag_index (write_all ws1 db) = tag_index (write_all ws2 db).
Proof.
  intros Hsame. apply tag_index_ext.
  - intros id. rewrite !dom_write_all, !list_elem_of_fmap.
    split; (intros [? | ([id' tag] & -> & Hw)]; [by left|]; right;
            exists (id', tag); split; [done|]; by apply Hsame).
  - intros id. apply set_eq. intros tag.
    rewrite !elem_of_tags_of_write_all. by rewrite Hsame.
Qed.

(** ** The order of the replies *)

Lemma plan_reordered EMAIL db msg msg' pm pa :
  reordered msg msg' → plan EMAIL db msg pm pa ≡ₚ plan EMAIL db msg' pm pa.
Proof.
  revert msg' pm pa. induction msg as [id hdrs rs IH] using Message_rose_ind.
  intros msg' pm pa Hre. inversion Hre as [? ? ? mid rs' Hmid Hperm]; subst.
  rewrite !plan_cons. simpl.
  change (from_msg EMAIL (Msg id hdrs rs'))
    with (from_msg EMAIL (Msg id hdrs rs)).
  generalize (mute_decision (tags_of db id) pm pa
                (from_msg EMAIL (Msg id hdrs rs))) as mute.
  generalize (from_msg EMAIL (Msg id hdrs rs)) as addressed.
  intros addressed mute.
  apply Permutation_app; [done|]. rewrite <- Hperm. clear Hre Hperm.
  induction Hmid as [|r r' rs mid Hr Hmid IHmid]; [done|].
  apply Forall_cons in IH as [IHr IHrs].
  rewrite !bind_cons. apply Permutation_app; [by apply IHr | by apply IHmid].
Qed.

(** X6: the order in which the library yields the replies to a message does
    not matter: a run on the same thread with the replies in another
    order, at any depth, makes the same writes in another order and
    leaves the same tag index. *)
Theorem reply_order_irrelevant EMAIL root root' parent_muted parent_addressed db :
  reordered root root' →
  let db1 := exec (apply_mute EMAIL root parent_muted parent_addressed) db in
  let db2 := exec (apply_mute EMAIL root' parent_muted parent_addressed) db in
  journal_since db db1 ≡ₚ journal_since db db2
  ∧ tag_index db1 = tag_index db2.
Proof.
  intros Hre db1 db2. unfold db1, db2.
  rewrite !apply_mute_self_plan, !journal_since_write_all.
  pose proof (plan_reordered EMAIL db root root' parent_muted parent_addressed
                Hre) as Hperm.
  split; [done|]. apply write_all_index_ext. intros w. by rewrite Hperm.
Qed.

Lemma reply_order_irrelevant_witness :
  reordered sample_R2 sample_R2'
  ∧ tag_index (exec (apply_mute me sample_R2 false None) sample_db)
    = tag_index (exec (apply_mute me sample_R2' false None) sample_db).
Proof.
  assert (reordered sample_R2 sample_R2') as Hre.
  { apply (reordered_msg _ _ _ [sample_A; sample_C]); [|apply perm_swap].
    repeat constructor.
    - apply (reordered_msg _ _ _ [sample_B]); [|done]. repeat constructor.
      by apply (reordered_msg _ _ _ []).
    - by apply (reordered_msg _ _ _ []). }
  split; [exact Hre|].
  exact (proj2 (reply_order_irrelevant me _ _ false None sample_db Hre)).
Defined.

(** ** Replies that arrive later *)

Lemma plan_grown EMAIL db old new pm pa w :
  grown old new → w ∈ plan EMAIL db old pm pa → w ∈ plan EMAIL db new pm pa.
Proof.
  revert new pm pa. induction old as [id hdrs rs IH] using Message_rose_ind.
  intros new pm pa Hgrown. inversion Hgrown as [? ? ? kept rs' Hkept Hsub]; subst.
  rewrite !plan_cons. simpl.
  change (from_msg EMAIL (Msg id hdrs rs'))
    with (from_msg EMAIL (Msg id hdrs rs)).
  generalize (mute_decision (tags_of db id) pm pa
                (from_msg EMAIL (Msg id hdrs rs))) as mute.
  generalize (from_msg EMAIL (Msg id hdrs rs)) as addressed.
  intros addressed mute.
  rewrite !elem_of_app, !list_elem_of_bind.
  intros [Hown | (r & Hw & Hr)]; [by left|]. right.
  rewrite Forall_forall in IH.
  apply list_elem_of_lookup in Hr as [i Hi].
  destruct (Forall2_lookup_l _ _ _ _ _ Hkept Hi) as (r' & Hi' & Hrr').
  exists r'. split; [by apply (IH r (list_elem_of_lookup_2 _ _ _ Hi))|].
  eapply elem_of_sublist; [|exact Hsub]. by eapply list_elem_of_lookup_2.
Qed.

(** X7: when replies have arrived in a thread that a run has handled, a run
    on the thread as it is now gives every message the tags that the same
    run gives on a database where the earlier run never happened:
    nothing the earlier run wrote stands in the way. *)
Theorem rerun_after_new_replies EMAIL old new parent_muted parent_addressed db :
  grown old new →
  let handled := exec (apply_mute EMAIL old parent_muted parent_addressed) db in
  tag_index (exec (apply_mute EMAIL new parent_muted parent_addressed) handled)
  = tag_index (exec (apply_mute EMAIL new parent_muted parent_addressed) db).
Proof.
  intros Hgrown handled. unfold handled.
  rewrite (apply_mute_self_plan EMAIL old).
  rewrite (apply_mute_plan EMAIL db new) by apply plan_same_commands.
  rewrite (apply_mute_self_plan EMAIL new), <- write_all_app.
  apply write_all_index_ext. intros w. rewrite elem_of_app.
  split; [|by right]. intros [Hold | Hnew]; [|done].
  by eapply plan_grown.
Qed.

Lemma rerun_after_new_replies_witness :
  grown sample_R_before sample_R
  ∧ tag_index
      (exec (apply_mute me sample_R false None)
         (exec (apply_mute me sample_R_before false None) sample_db))
    = tag_index (exec (apply_mute me sample_R false None) sample_db).
Proof.
  assert (grown sample_R_before sample_R) as Hgrown.
  { apply (grown_msg _ _ _ [sample_A]); [|done]. repeat constructor.
    apply (grown_msg _ _ _ []); [done|]. apply sublist_nil_l. }
  split; [exact Hgrown|].
  exact (rerun_after_new_replies me _ _ false None sample_db Hgrown).
Defined.

(** ** The loop over the selected threads *)

Lemma mute_threads_plan EMAIL db0 threads db :
  same_commands db db0 →
  exec (mute_threads EMAIL threads) db
  = write_all (threads ≫= λ thread, plan EMAIL db0 thread false None) db.
Proof.
  revert db. induction threads as [|t ts IH]; intros db Hsame; [done|].
  rewrite exec_mute_threads_cons, bind_cons, write_all_app.
  rewrite (apply_mute_plan EMAIL db0) by done.
  apply IH. eapply same_commands_trans; [apply plan_same_commands | done].
Qed.

Lemma mute_threads_same_commands EMAIL threads db :
  same_commands (exec (mute_threads EMAIL threads) db) db.
Proof.
  rewrite (mute_threads_plan EMAIL db) by done.
  apply write_all_same_commands. intros [id tag] Hin; simpl.
  apply list_elem_of_bind in Hin as (t & Hin & _).
  apply plan_writes in Hin as [_ [-> | ->]]; done.
Qed.

(** X8: after the loop every message of every thread it was given carries
    the processed marker, so none of them is left that has the command
    tag without the processed marker; and going through the same threads
    a second time changes no tag. *)
Theorem mute_threads_processes_all EMAIL threads db :
  let db' := exec (mute_threads EMAIL threads) db in
  (∀ thread id,
     thread ∈ threads → id ∈ thread_ids thread →
     PROCESSED_TAG ∈ tags_of db' id
     ∧ ¬ (MUTE_CMD_TAG ∈ tags_of db' id ∧ PROCESSED_TAG ∉ tags_of db' id))
  ∧ tag_index (exec (mute_threads EMAIL threads) db') = tag_index db'.
Proof.
  intros db'. split.
  - intros thread id Hthread Hid.
    assert (PROCESSED_TAG ∈ tags_of db' id) as Hdone;
      [|split; [exact Hdone | intros [_ Hnot]; by apply Hnot]].
    unfold db'. rewrite (mute_threads_plan EMAIL db) by done.
    apply elem_of_tags_of_write_all. right.
    apply list_elem_of_bind. exists thread. split; [|done].
    by apply plan_processed_elem.
  - unfold db'.
    rewrite (mute_threads_plan EMAIL db _ (exec _ _))
      by apply mute_threads_same_commands.
    rewrite (mute_threads_plan EMAIL db) by done.
    apply write_all_twice.
Qed.

Lemma mute_threads_processes_all_witness :
  sample_R ∈ [sample_R] ∧ "b@thread" ∈ thread_ids sample_R
  ∧ PROCESSED_TAG
      ∈ tags_of (exec (mute_threads me [sample_R]) sample_db) "b@thread".
Proof.
  assert (sample_R ∈ [sample_R]) as Hthread by (by left).
  assert ("b@thread" ∈ thread_ids sample_R) as Hid.
  { by_evaluation. }
  split_and!; [exact Hthread | exact Hid |].
  exact (proj1 (proj1 (mute_threads_processes_all me [sample_R] sample_db)
                  sample_R "b@thread" Hthread Hid)).
Defined.

(** ** The decision, compared across parents *)

(** X9: muting is monotone: with the same tags, a call decides to mute
    whenever it would have decided so with an unmuted parent in place of
    a muted one, with a parent that was addressed less strongly, or with
    the message itself addressed more strongly. *)
Theorem mute_decision_monotone tags pm pm' parent parent' addressed addressed' :
  (pm = true → pm' = true) →
  (Addressed_value parent ≤ Addressed_value parent')%Z →
  (Addressed_value addressed' ≤ Addressed_value addressed)%Z →
  mute_decision tags pm (Some parent) addressed = true →
  mute_decision tags pm' (Some parent') addressed' = true.
Proof.
  intros Hpm Hparent Haddressed. unfold mute_decision.
  case_decide; [done|]. destruct pm; [|done]. rewrite Hpm by done.
  rewrite !Addressed_le_spec. lia.
Qed.

Lemma mute_decision_monotone_witness :
  mute_decision {[ "inbox" ]} true (Some TO) NONE = true.
Proof.
  apply (mute_decision_monotone {[ "inbox" ]} true true CC TO CC NONE).
  - done.
  - simpl. lia.
  - simpl. lia.
  - by vm_compute.
Defined.

(** ** The addressing of a message, continued *)

Lemma occurs_trans inner needle hay :
  Str.occurs inner needle → Str.occurs needle hay → Str.occurs inner hay.
Proof.
  intros (b1 & a1 & ->) (b2 & a2 & ->).
  exists (b2 +:+ b1), (a1 +:+ a2). by rewrite !app_assoc_str.
Qed.

(** X10: an address that is part of another is found wherever the other is:
    with a part of the address in its place, no message is addressed
    less strongly. *)
Theorem from_msg_shorter_address EMAIL part msg :
  Str.contains part EMAIL = true →
  (Addressed_value (from_msg EMAIL msg)
   ≤ Addressed_value (from_msg part msg))%Z.
Proof.
  rewrite contains_spec. intros Hpart.
  assert (∀ hay, Str.contains EMAIL hay = true → Str.contains part hay = true)
    as Hmono.
  { intros hay. rewrite !contains_spec. by apply occurs_trans. }
  rewrite !from_msg_cases.
  destruct (Str.contains EMAIL (get_header msg "To")) eqn:HTo,
           (Str.contains part (get_header msg "To")) eqn:HTo',
           (Str.contains EMAIL (get_header msg "Cc")) eqn:HCc,
           (Str.contains part (get_header msg "Cc")) eqn:HCc';
    simpl; try lia.
  all: first [ by rewrite (Hmono _ HTo) in HTo'
             | by rewrite (Hmono _ HCc) in HCc' ].
Qed.

Lemma from_msg_shorter_address_witness :
  (Addressed_value (from_msg me sample_A)
   ≤ Addressed_value (from_msg "example.org" sample_A))%Z.
Proof.
  apply (from_msg_shorter_address me "example.org" sample_A).
  by vm_compute.
Defined.

(** X11: a message that has neither a To nor a Cc header is addressed NONE,
    unless the address is the empty string. *)
Theorem from_msg_without_headers EMAIL msg :
  EMAIL ≠ "" →
  headers msg !! "To" = None → headers msg !! "Cc" = None →
  from_msg EMAIL msg = NONE.
Proof.
  intros Hemail HTo HCc. rewrite from_msg_cases. unfold get_header.
  rewrite HTo, HCc. simpl.
  destruct EMAIL; [done|]. done.
Qed.

Lemma from_msg_without_headers_witness :
  from_msg me (Msg "n@thread" {[ "Subject" := "hello" ]} []) = NONE.
Proof.
  apply from_msg_without_headers; by vm_compute.
Defined.

(** ** Printing *)

Lemma io_unit (m : IO unit) w : m w = (tt, run_io m w).
Proof. unfold run_io. by destruct (m w) as [[] w']. Qed.

Lemma run_io_bind {A B} (m : IO A) (k : A → IO B) w :
  run_io (m ≫= k) w = run_io (k (m w).1) (m w).2.
Proof. unfold run_io, mbind, IO_bind. by destruct (m w). Qed.

Lemma run_io_for_each_cons {A} (body : A → IO unit) x xs w :
  run_io (io_for_each body (x :: xs)) w
  = run_io (io_for_each body xs) (run_io (body x) w).
Proof. simpl. rewrite run_io_bind. by rewrite (io_unit (body x)). Qed.

Lemma run_io_lift (m : M unit) w :
  run_io (lift m) w = {| database := exec m (database w); stdout := stdout w |}.
Proof. unfold run_io, lift. by rewrite (run_unit m). Qed.

Lemma run_io_verbose_print VERBOSE args w :
  run_io (verbose_print VERBOSE args) w
  = {| database := database w;
       stdout := stdout w ++ if VERBOSE then [Str.join " " args] else [] |}.
Proof.
  destruct VERBOSE, w as [db out]; simpl; [done|].
  unfold run_io. simpl. by rewrite app_nil_r.
Qed.

Lemma run_io_bind_eq {A B} (m : IO A) (k : A → IO B) w a w' :
  m w = (a, w') → run_io (m ≫= k) w = run_io (k a) w'.
Proof. intros Hm. by rewrite run_io_bind, Hm. Qed.

Lemma lift_get_tags msg w :
  lift (get_tags msg) w = (tags_of (database w) (message_id msg), w).
Proof. by destruct w. Qed.

(** The first of the two characters, as [print_thread] computes it. *)
Lemma print_thread_marker msg w :
  ((if decide (MUTE_CMD_TAG ∈ tags_of (database w) (message_id msg))
    then mret "M"
    else
      tags ← lift (get_tags msg);
      if decide (MUTED_TAG ∈ tags) then mret "m" else mret " ") : IO string) w
  = (if decide (MUTE_CMD_TAG ∈ tags_of (database w) (message_id msg)) then "M"
     else if decide (MUTED_TAG ∈ tags_of (database w) (message_id msg)) then "m"
     else " ", w).
Proof.
  case_decide; [done|].
  unfold mbind, IO_bind. rewrite lift_get_tags. by case_decide.
Qed.

(** [print_thread] prints the lines of the thread when verbose, and
    leaves the database as it is. *)
Lemma run_io_print_thread VERBOSE EMAIL msg nest_level w :
  run_io (print_thread VERBOSE EMAIL msg nest_level) w
  = {| database := database w;
       stdout := stdout w ++
                 if VERBOSE
                 then thread_lines EMAIL (database w) msg nest_level
                 else [] |}.
Proof.
  revert nest_level w. induction msg as [id hdrs rs IH] using Message_rose_ind.
  intros n w. cbn [print_thread thread_lines].
  assert (∀ out,
            run_io (io_for_each
                      (λ reply, print_thread VERBOSE EMAIL reply (n + 1)) rs)
              {| database := database w; stdout := out |}
            = {| database := database w;
                 stdout := out ++
                   if VERBOSE
                   then rs ≫= λ reply,
                          thread_lines EMAIL (database w) reply (n + 1)
                   else [] |}) as Hrs.
  { induction IH as [|r rs Hr _ IHrs]; intros out.
    - unfold run_io. simpl. by destruct VERBOSE; rewrite app_nil_r.
    - rewrite run_io_for_each_cons, Hr. cbn [database stdout]. rewrite IHrs.
      destruct VERBOSE; [|by rewrite !app_nil_r].
      by rewrite bind_cons, app_assoc. }
  erewrite run_io_bind_eq by apply lift_get_tags.
  erewrite run_io_bind_eq
    by apply (print_thread_marker (Msg id hdrs rs) w).
  rewrite run_io_bind, (io_unit (verbose_print _ _)). cbn [fst snd].
  rewrite run_io_verbose_print, Hrs. f_equal.
  destruct VERBOSE; [|by rewrite !app_nil_r].
  rewrite <- app_assoc. do 2 f_equal.
  unfold thread_line, tag_chars_of. cbn [message_id].
  by destruct (from_msg EMAIL (Msg id hdrs rs)).
Qed.

Lemma printed_by_print_thread VERBOSE EMAIL msg nest_level w :
  printed_by (print_thread VERBOSE EMAIL msg nest_level) w
  = if VERBOSE then thread_lines EMAIL (database w) msg nest_level else [].
Proof.
  unfold printed_by. rewrite run_io_print_thread. simpl.
  by rewrite drop_app_length.
Qed.

Lemma length_thread_lines EMAIL db msg nest_level :
  length (thread_lines EMAIL db msg nest_level) = length (preorder msg).
Proof.
  revert nest_level. induction msg as [id hdrs rs IH] using Message_rose_ind.
  intros n.
  change (preorder (Msg id hdrs rs)) with (Msg id hdrs rs :: (rs ≫= preorder)).
  cbn [thread_lines length]. f_equal.
  induction IH as [|r rs Hr _ IHrs]; [done|].
  rewrite !bind_cons, !length_app. by rewrite Hr, IHrs.
Qed.

(** X12: [print_thread] only prints: it leaves the database as it found it,
    prints nothing when not verbose, and one line for every message of
    the thread when verbose. *)
Theorem print_thread_only_prints VERBOSE EMAIL msg nest_level w :
  database (run_io (print_thread VERBOSE EMAIL msg nest_level) w) = database w
  ∧ length (printed_by (print_thread VERBOSE EMAIL msg nest_level) w)
    = if VERBOSE then length (preorder msg) else 0.
Proof.
  rewrite run_io_print_thread, printed_by_print_thread. split; [done|].
  destruct VERBOSE; [apply length_thread_lines | done].
Qed.

Lemma repeat_str_add s n k :
  (0 ≤ n)%Z → (0 ≤ k)%Z →
  repeat_str s (n + k) = repeat_str s n +:+ repeat_str s k.
Proof.
  intros Hn Hk. unfold repeat_str. rewrite Z2Nat.inj_add by done.
  generalize (Z.to_nat n) as a. generalize (Z.to_nat k) as b. intros b a.
  induction a as [|a IH]; [done|].
  simpl. rewrite IH. by rewrite app_assoc_str.
Qed.

Lemma thread_lines_shift EMAIL db msg n k :
  (0 ≤ n)%Z → (0 ≤ k)%Z →
  thread_lines EMAIL db msg (n + k)
  = (λ line, repeat_str "  " n +:+ line) <$> thread_lines EMAIL db msg k.
Proof.
  intros Hn. revert k. induction msg as [id hdrs rs IH] using Message_rose_ind.
  intros k Hk. cbn [thread_lines]. rewrite fmap_cons. f_equal.
  - unfold thread_line. rewrite repeat_str_add by done.
    by rewrite !app_assoc_str.
  - induction IH as [|r rs Hr _ IHrs]; [done|].
    rewrite !bind_cons, fmap_app, <- IHrs. f_equal.
    rewrite <- Hr by lia. f_equal. lia.
Qed.

(** X13: the nesting level only indents: at a level that is not negative,
    [print_thread] prints the lines it prints at level 0, each behind two
    spaces per level. *)
Theorem print_thread_indents VERBOSE EMAIL msg nest_level w :
  (0 ≤ nest_level)%Z →
  printed_by (print_thread VERBOSE EMAIL msg nest_level) w
  = (λ line, repeat_str "  " nest_level +:+ line)
    <$> printed_by (print_thread VERBOSE EMAIL msg 0) w.
Proof.
  intros Hn. rewrite !printed_by_print_thread. destruct VERBOSE; [|done].
  rewrite <- (thread_lines_shift EMAIL (database w) msg nest_level 0) by done.
  f_equal. lia.
Qed.

Lemma print_thread_indents_witness :
  printed_by (print_thread true me sample_R 2)
    {| database := sample_db; stdout := [] |}
  = (λ line, repeat_str "  " 2 +:+ line)
    <$> printed_by (print_thread true me sample_R 0)
          {| database := sample_db; stdout := [] |}.
Proof. apply print_thread_indents. lia. Defined.

Lemma thread_lines_ext EMAIL db1 db2 msg nest_level :
  (∀ id, id ∈ thread_ids msg →
         (MUTE_CMD_TAG ∈ tags_of db1 id ↔ MUTE_CMD_TAG ∈ tags_of db2 id)
         ∧ (MUTED_TAG ∈ tags_of db1 id ↔ MUTED_TAG ∈ tags_of db2 id)) →
  thread_lines EMAIL db1 msg nest_level = thread_lines EMAIL db2 msg nest_level.
Proof.
  revert nest_level. induction msg as [id hdrs rs IH] using Message_rose_ind.
  intros n Hsame. cbn [thread_lines]. f_equal.
  - destruct (Hsame id (thread_ids_self (Msg id hdrs rs))) as [Hcmd Hmuted].
    unfold thread_line, tag_chars_of. cbn [message_id]. do 3 f_equal.
    repeat case_decide; tauto.
  - assert (∀ reply, reply ∈ rs → ∀ x, x ∈ thread_ids reply →
              (MUTE_CMD_TAG ∈ tags_of db1 x ↔ MUTE_CMD_TAG ∈ tags_of db2 x)
              ∧ (MUTED_TAG ∈ tags_of db1 x ↔ MUTED_TAG ∈ tags_of db2 x))
      as Hrs.
    { intros reply Hreply x Hx. apply Hsame. by eapply thread_ids_reply. }
    clear Hsame. induction IH as [|r rs Hr _ IHrs]; [done|].
    rewrite !bind_cons. f_equal.
    + apply Hr, Hrs. by left.
    + apply IHrs. intros reply Hreply. apply Hrs. by right.
Qed.

(** X14: what [print_thread] shows of the tags is the command tag and the
    muted tag: in two worlds that agree, for the messages of the thread,
    on who carries these two, it prints the same, whatever else differs
    (the processed marker, other tags, other messages). *)
Theorem print_thread_shows_two_tags VERBOSE EMAIL msg nest_level w1 w2 :
  (∀ id, id ∈ thread_ids msg →
         (MUTE_CMD_TAG ∈ tags_of (database w1) id
          ↔ MUTE_CMD_TAG ∈ tags_of (database w2) id)
         ∧ (MUTED_TAG ∈ tags_of (database w1) id
            ↔ MUTED_TAG ∈ tags_of (database w2) id)) →
  printed_by (print_thread VERBOSE EMAIL msg nest_level) w1
  = printed_by (print_thread VERBOSE EMAIL msg nest_level) w2.
Proof.
  intros Hsame. rewrite !printed_by_print_thread.
  destruct VERBOSE; [|done]. by apply thread_lines_ext.
Qed.

Lemma print_thread_shows_two_tags_witness :
  let before := {| database := sample_db; stdout := [] |} in
  let after :=
    {| database := exec (apply_mute me sample_A false None) sample_db;
       stdout := [] |} in
  printed_by (print_thread true me sample_A 0) before
  = printed_by (print_thread true me sample_A 0) after.
Proof.
  apply print_thread_shows_two_tags. intros id Hid. simpl.
  apply elem_of_cons in Hid as [-> | Hid].
  { split; by_evaluation. }
  apply list_elem_of_singleton in Hid as ->. split; by_evaluation.
Defined.

(** ** The main program *)

Section Main.

Context (VERBOSE : bool) (EMAIL : string).
Context (search_threads : string → Database → list Message).

Lemma run_io_print_loop threads w :
  run_io
    (io_for_each
       (λ thread,
          print_thread VERBOSE EMAIL thread 0 ;;
          verbose_print VERBOSE [] ;;
          verbose_print VERBOSE ["muting..."])
       threads) w
  = {| database := database w;
       stdout := stdout w ++
         if VERBOSE
         then threads ≫= λ thread,
                thread_lines EMAIL (database w) thread 0 ++ [""; "muting..."]
         else [] |}.
Proof.
  revert w. induction threads as [|t ts IH]; intros w.
  - unfold run_io. destruct w. simpl. by destruct VERBOSE; rewrite app_nil_r.
  - rewrite run_io_for_each_cons, IH. clear IH.
    rewrite run_io_bind, (io_unit (print_thread _ _ _ _)). cbn [fst snd].
    rewrite run_io_bind, (io_unit (verbose_print _ _)). cbn [fst snd].
    rewrite !run_io_verbose_print, run_io_print_thread. cbn [database stdout].
    f_equal. destruct VERBOSE; [|by rewrite !app_nil_r].
    rewrite bind_cons. simpl. by rewrite <- !app_assoc.
Qed.

Lemma run_io_mute_loop threads w :
  run_io
    (io_for_each
       (λ thread,
          lift (apply_mute EMAIL thread false None) ;;
          verbose_print VERBOSE [] ;;
          verbose_print VERBOSE [])
       threads) w
  = {| database := exec (mute_threads EMAIL threads) (database w);
       stdout := stdout w ++
         if VERBOSE then threads ≫= λ _, [""; ""] else [] |}.
Proof.
  revert w. induction threads as [|t ts IH]; intros w.
  - unfold run_io. destruct w. simpl. by destruct VERBOSE; rewrite app_nil_r.
  - rewrite run_io_for_each_cons, IH. clear IH.
    rewrite run_io_bind, (io_unit (lift _)). cbn [fst snd].
    rewrite run_io_bind, (io_unit (verbose_print _ _)). cbn [fst snd].
    rewrite !run_io_verbose_print, run_io_lift. cbn [database stdout].
    rewrite exec_mute_threads_cons. f_equal.
    destruct VERBOSE; [|by rewrite !app_nil_r].
    rewrite bind_cons. simpl. by rewrite <- !app_assoc.
Qed.

Lemma run_io_print_again_loop threads w :
  run_io (io_for_each (λ thread, print_thread VERBOSE EMAIL thread 0) threads) w
  = {| database := database w;
       stdout := stdout w ++
         if VERBOSE
         then threads ≫= λ thread, thread_lines EMAIL (database w) thread 0
         else [] |}.
Proof.
  revert w. induction threads as [|t ts IH]; intros w.
  - unfold run_io. destruct w. simpl. by destruct VERBOSE; rewrite app_nil_r.
  - rewrite run_io_for_each_cons, IH, run_io_print_thread.
    cbn [database stdout]. f_equal.
    destruct VERBOSE; [|by rewrite !app_nil_r].
    by rewrite bind_cons, <- app_assoc.
Qed.

Lemma search_run query w :
  search search_threads query w = (search_threads query (database w), w).
Proof. done. Qed.

(** X15: whatever the query engine selects, the main program does to the
    database what the loop of [apply_mute] does on the threads selected
    at the start, verbose or not.  When verbose it prints those threads
    as they are before, two lines after each, two empty lines for each
    thread muted, and the threads selected in the end, as they are then;
    when not verbose it prints nothing. *)
Theorem main_effect query_extra w :
  let query := query_string query_extra in
  let selected := search_threads query (database w) in
  let db' := exec (mute_threads EMAIL selected) (database w) in
  database (run_io (main VERBOSE EMAIL search_threads query_extra) w) = db'
  ∧ printed_by (main VERBOSE EMAIL search_threads query_extra) w
    = if VERBOSE
      then (selected ≫= λ thread,
              thread_lines EMAIL (database w) thread 0 ++ [""; "muting..."])
           ++ (selected ≫= λ _, [""; ""])
           ++ (search_threads query db' ≫= λ thread,
                 thread_lines EMAIL db' thread 0)
      else [].
Proof.
  intros query selected db'.
  assert (run_io (main VERBOSE EMAIL search_threads query_extra) w
          = {| database := db';
               stdout := stdout w ++
                 if VERBOSE
                 then (selected ≫= λ thread,
                         thread_lines EMAIL (database w) thread 0
                         ++ [""; "muting..."])
                      ++ (selected ≫= λ _, [""; ""])
                      ++ (search_threads query db' ≫= λ thread,
                            thread_lines EMAIL db' thread 0)
                 else [] |}) as Hrun.
  { unfold main. fold query.
    erewrite run_io_bind_eq by apply search_run.
    rewrite run_io_bind, (io_unit (io_for_each _ _)). cbn [fst snd].
    rewrite run_io_print_loop.
    erewrite run_io_bind_eq by apply search_run. cbn [database].
    rewrite run_io_bind, (io_unit (io_for_each _ _)). cbn [fst snd].
    rewrite run_io_mute_loop. cbn [database stdout].
    erewrite run_io_bind_eq by apply search_run. cbn [database].
    rewrite run_io_print_again_loop. cbn [database stdout].
    fold selected. fold db'. f_equal.
    destruct VERBOSE; [|by rewrite !app_nil_r].
    by rewrite <- !app_assoc. }
  unfold printed_by. rewrite Hrun. cbn [database stdout].
  split; [done|]. by rewrite drop_app_length.
Qed.

End Main.

(** ** The recursion limit *)












